(** * twikutil: function adapter and typed keys for an embedded twik scope

    A shallow embedding of the Go packages [twikutil] (twik.go, executer.go)
    and [twikutil/key] (typer and key sources), with the properties of the
    function adapter, the coercion engine and the key synchronisation
    operations stated and proved over it.

    Layout:
    - [golang]   : the part of the Go runtime the code relies on
                   (interface values, errors, [reflect.Type], panics);
    - [twik]     : the scope of the external interpreter, as the executer
                   uses it;
    - [twikutil] : [Format], [Func] and the [Executer];
    - [key]      : [Typer], [Check], [Key] and its operations. *)

From Stdlib Require Import ZArith SpecFloat Ascii String.
From stdpp Require Import base option list strings gmap sorting.

Set Warnings "-register-all".

Local Open Scope string_scope.
Local Open Scope Z_scope.

(* ===================================================================== *)
(** ** The Go runtime, as far as the packages observe it                   *)
(* ===================================================================== *)

Module golang.

(** A call either returns or panics.  Panics are kept apart from returned
    [error] values: the adapter returns errors and must not panic. *)
Inductive Outcome (A : Type) : Type :=
  | Ret (a : A)
  | Panic (msg : string).
Arguments Ret {A} a.
Arguments Panic {A} msg.

#[export] Instance Outcome_ret : MRet Outcome := fun _ a => Ret a.
#[export] Instance Outcome_bind : MBind Outcome := fun _ _ k m =>
  match m with
  | Ret a => k a
  | Panic msg => Panic msg
  end.

(** The predeclared types that occur in the sources. *)
Inductive Basic : Set :=
  | Bool | Int | Int8 | Int16 | Int32 | Int64
  | Uint | Uint8 | Uint16 | Uint32 | Uint64
  | Float32 | Float64 | String_.

#[export] Instance Basic_eq_dec : EqDecision Basic.
Proof. solve_decision. Defined.

Definition basic_name (b : Basic) : string :=
  match b with
  | Bool => "bool" | Int => "int" | Int8 => "int8" | Int16 => "int16"
  | Int32 => "int32" | Int64 => "int64"
  | Uint => "uint" | Uint8 => "uint8" | Uint16 => "uint16"
  | Uint32 => "uint32" | Uint64 => "uint64"
  | Float32 => "float32" | Float64 => "float64" | String_ => "string"
  end.

(** [reflect.Kind]. *)
Inductive Kind : Set :=
  | KBasic (b : Basic)
  | Interface | Slice | Func_ | Ptr | Struct | Map | Chan | Array.

#[export] Instance Kind_eq_dec : EqDecision Kind.
Proof. solve_decision. Defined.

(** The kinds of the types whose structure the code never looks at:
    every kind but slice and function. *)
Inductive Opaque : Set :=
  | OBasic (b : Basic)
  | OInterface | OPtr | OStruct | OMap | OChan | OArray.

#[export] Instance Opaque_eq_dec : EqDecision Opaque.
Proof. solve_decision. Defined.

Definition Opaque_kind (o : Opaque) : Kind :=
  match o with
  | OBasic b => KBasic b
  | OInterface => Interface
  | OPtr => Ptr
  | OStruct => Struct
  | OMap => Map
  | OChan => Chan
  | OArray => Array
  end.

(** [reflect.Type].  Basic, slice and function types are structural
    because the code takes them apart ([Elem], [In], [Out],
    [IsVariadic]).  A defined type over a slice or function type
    ([type Handler func(string) error]) has a [String()], a [Name()] and
    a method set of its own, and the kind and the structure of the type
    it is defined from.  Every other type is described by what [reflect]
    reports about it: [String()], [Name()], [Kind()] and its method
    set. *)
Inductive GoType : Type :=
  | TBasic (b : Basic)
  | TSlice (elem : GoType)
  | TFunc (ins : list GoType) (variadic : bool) (outs : list GoType)
  | TDefined (str name : string) (methods : list string) (under : GoType)
  | TOther (str name : string) (k : Opaque) (methods : list string).

(** Go types are canonical: [==] on [reflect.Type] is type identity. *)
Fixpoint GoType_eq_dec (a b : GoType) {struct a} : {a = b} + {a <> b}.
Proof.
  decide equality;
    try solve [ apply (List.list_eq_dec GoType_eq_dec) ];
    match goal with |- {?x = ?y} + {_} => exact (decide (x = y)) end.
Defined.

#[export] Instance GoType_eqdec : EqDecision GoType := GoType_eq_dec.

(** interface {} and error. *)
Definition tAny : GoType := TOther "interface {}" "" OInterface [].
Definition tError : GoType := TOther "error" "error" OInterface ["Error"].

(** [t.Kind()]: a defined type has the kind of the type it is defined
    from. *)
Fixpoint type_kind (t : GoType) : Kind :=
  match t with
  | TBasic b => KBasic b
  | TSlice _ => Slice
  | TFunc _ _ _ => Func_
  | TDefined _ _ _ u => type_kind u
  | TOther _ _ k _ => Opaque_kind k
  end.

(** The parameters, the variadic flag and the results of a type of kind
    function, which [NumIn], [In], [IsVariadic], [NumOut] and [Out]
    read. *)
Fixpoint signature (t : GoType) : option (list GoType * bool * list GoType) :=
  match t with
  | TFunc ins variadic outs => Some (ins, variadic, outs)
  | TDefined _ _ _ u => signature u
  | _ => None
  end.

(** [t.Name()]: empty for unnamed (composite) types. *)
Definition type_name (t : GoType) : string :=
  match t with
  | TBasic b => basic_name b
  | TSlice _ => ""
  | TFunc _ _ _ => ""
  | TDefined _ n _ _ => n
  | TOther _ n _ _ => n
  end.

Definition method_set (t : GoType) : list string :=
  match t with
  | TDefined _ _ ms _ => ms
  | TOther _ _ _ ms => ms
  | _ => []
  end.

Definition join (sep : string) (xs : list string) : string :=
  match xs with
  | [] => ""
  | x :: rest => foldl (fun acc y => acc +:+ sep +:+ y) x rest
  end.

(** The last parameter of a variadic function prints as [...T]. *)
Fixpoint dots_last (variadic : bool) (ps : list string) : list string :=
  match ps with
  | [] => []
  | [p] => [if variadic then "..." +:+ String.substring 2 (String.length p - 2)%nat p else p]
  | p :: rest => p :: dots_last variadic rest
  end.

(** [t.String()]. *)
Fixpoint type_string (t : GoType) : string :=
  match t with
  | TBasic b => basic_name b
  | TSlice e => "[]" +:+ type_string e
  | TFunc ins v outs =>
      let ps := dots_last v (List.map type_string ins) in
      let rs := List.map type_string outs in
      "func(" +:+ join ", " ps +:+ ")" +:+
      match rs with
      | [] => ""
      | [r] => " " +:+ r
      | _ => " (" +:+ join ", " rs +:+ ")"
      end
  | TDefined s _ _ _ => s
  | TOther s _ _ _ => s
  end.

(** [it.Implements(ft)] for an interface type [ft]. *)
Definition implements (it ft : GoType) : bool :=
  forallb (fun m => bool_decide (m ∈ method_set it)) (method_set ft).

(** Package-level error variables, compared by identity with [==]. *)
Inductive Sentinel : Set :=
  | ErrCatch | ErrKeyExists | ErrMissingValue | ErrNotTyper | ErrFuncExists.

#[export] Instance Sentinel_eq_dec : EqDecision Sentinel.
Proof. solve_decision. Defined.

(** Interface values ([interface{}]) and [error] values.  [VNil] is the
    nil interface.  [VOther t id] is a value of a dynamic type [t] that is
    none of the listed ones and not an error (a function, a slice, a
    struct, ...), told apart by [id].  The two packages each have a
    [TypeError]; [ptr] records whether an error is held by pointer, which
    the type switches of [Check] look at. *)
Inductive Value : Type :=
  | VNil
  | VBool (b : bool)
  | VInt (z : Z)
  | VInt16 (z : Z)
  | VInt32 (z : Z)
  | VInt64 (z : Z)
  | VFloat32 (f : spec_float)
  | VFloat64 (f : spec_float)
  | VString (s : string)
  | VError (e : Error)
  | VOther (t : GoType) (id : N)
with Error : Type :=
  | ESentinel (s : Sentinel)
  | ENew (msg : string)
  | ETwikTypeError (Name : string) (Fn Got : Value) (Want : list string)
  | EKeyRequired (Name : string)
  | EKeyImplements (ptr : bool) (Name : string) (Got : option GoType) (Wants : string)
  | EKeyType (ptr : bool) (Name : string) (Got : option GoType) (Wants : string)
  | EOther (t : GoType) (id : N).

Definition tPtr (s : string) : GoType := TOther s "" OPtr ["Error"].
Definition tStruct (s n : string) : GoType := TOther s n OStruct ["Error"].

Definition error_type (e : Error) : GoType :=
  match e with
  | ESentinel _ => tPtr "*errors.errorString"
  | ENew _ => tPtr "*errors.errorString"
  | ETwikTypeError _ _ _ _ => tPtr "*twikutil.TypeError"
  | EKeyRequired _ => tPtr "*key.RequiredError"
  | EKeyImplements true _ _ _ => tPtr "*key.ImplementsError"
  | EKeyImplements false _ _ _ => tStruct "key.ImplementsError" "ImplementsError"
  | EKeyType true _ _ _ => tPtr "*key.TypeError"
  | EKeyType false _ _ _ => tStruct "key.TypeError" "TypeError"
  | EOther t _ => t
  end.

(** [reflect.TypeOf]: the nil [reflect.Type] for the nil interface. *)
Definition TypeOf (v : Value) : option GoType :=
  match v with
  | VNil => None
  | VBool _ => Some (TBasic Bool)
  | VInt _ => Some (TBasic Int)
  | VInt16 _ => Some (TBasic Int16)
  | VInt32 _ => Some (TBasic Int32)
  | VInt64 _ => Some (TBasic Int64)
  | VFloat32 _ => Some (TBasic Float32)
  | VFloat64 _ => Some (TBasic Float64)
  | VString _ => Some (TBasic String_)
  | VError e => Some (error_type e)
  | VOther t _ => Some t
  end.

(** A method call on the result of [reflect.TypeOf]: the nil
    [reflect.Type] has no receiver to call it on. *)
Definition typeof (v : Value) : Outcome GoType :=
  match TypeOf v with
  | Some t => Ret t
  | None => Panic "invalid memory address or nil pointer dereference"
  end.

(** [v == nil] on an interface value. *)
Definition is_nil (v : Value) : bool :=
  match v with VNil => true | _ => false end.

(** [err == s] for a package-level error variable [s]. *)
Definition err_is (err : option Error) (s : Sentinel) : bool :=
  match err with
  | Some (ESentinel s') => bool_decide (s' = s)
  | _ => false
  end.

(** The type assertion [v.(error)]. *)
Definition as_error (v : Value) : option Error :=
  match v with VError e => Some e | _ => None end.

(** Conversion to [int] (64 bits wide) wraps around. *)
Definition wrap_int (z : Z) : Z :=
  (z + 2 ^ 63) mod 2 ^ 64 - 2 ^ 63.

(** [xs[i]] on a slice panics out of range. *)
Definition index {A} (xs : list A) (i : Z) : Outcome A :=
  if i <? 0 then Panic "index out of range"
  else match xs !! Z.to_nat i with
       | Some x => Ret x
       | None => Panic "index out of range"
       end.

(** [for i := lo; ...; i++] with [n] iterations left; the body either
    continues with a new state or returns from the enclosing function. *)
Fixpoint for_loop {S R} (n : nat) (i : Z) (body : Z -> S -> Outcome (S + R))
    (s : S) : Outcome (S + R) :=
  match n with
  | O => Ret (inl s)
  | Datatypes.S n' =>
      match body i s with
      | Ret (inl s') => for_loop n' (i + 1) body s'
      | Ret (inr r) => Ret (inr r)
      | Panic msg => Panic msg
      end
  end.

(** [strings.Replace(s, old, new, 1)]. *)
Fixpoint replace_first (old new s : string) : string :=
  if String.prefix old s
  then new +:+ String.substring (String.length old) (String.length s - String.length old)%nat s
  else match s with
       | EmptyString => EmptyString
       | String c rest => String c (replace_first old new rest)
       end.

Definition nl : string := String "010"%char EmptyString.
Definition tab : string := String "009"%char EmptyString.


(** Byte-wise order on strings, as [<] and [sort.Strings] use it. *)
Definition string_le (a b : string) : Prop := String.leb a b = true.

#[export] Instance string_le_dec : RelDecision string_le.
Proof. intros a b. unfold string_le. apply _. Defined.

(** [sort.Strings]: the sorted permutation of its argument. *)
Definition sort_Strings (xs : list string) : list string :=
  merge_sort string_le xs.

End golang.

Import golang.

(* ===================================================================== *)
(** ** The interpreter's scope (gopkg.in/twik.v1), seen from the executer  *)
(* ===================================================================== *)

(** The executer owns one root scope.  Of the external interpreter only
    the three calls the executer makes are modelled, on the scope's
    variable table: [Get] fails on an undefined symbol, [Set] rebinds a
    defined symbol and fails on an undefined one, [Create] binds a new
    symbol and fails on a defined one.  A symbol can be bound to nil. *)
Module twik.

Definition Get (vars : gmap string Value) (symbol : string) : Value * option Error :=
  match vars !! symbol with
  | Some v => (v, None)
  | None => (VNil, Some (ENew ("undefined symbol: " +:+ symbol)))
  end.

Definition Set_ (vars : gmap string Value) (symbol : string) (value : Value)
    : gmap string Value * option Error :=
  match vars !! symbol with
  | Some _ => (<[symbol := value]> vars, None)
  | None => (vars, Some (ENew ("cannot set undefined symbol: " +:+ symbol)))
  end.

Definition Create (vars : gmap string Value) (symbol : string) (value : Value)
    : gmap string Value * option Error :=
  match vars !! symbol with
  | Some _ => (vars, Some (ENew ("symbol already defined in current scope: " +:+ symbol)))
  | None => (<[symbol := value]> vars, None)
  end.

End twik.

(* ===================================================================== *)
(** ** Package twikutil: twik.go                                           *)
(* ===================================================================== *)

Module twikutil.

(** *** [reflect] accessors on function types; each panics off its domain *)

Definition NumIn (t : GoType) : Outcome Z :=
  match signature t with
  | Some (ins, _, _) => Ret (Z.of_nat (length ins))
  | None => Panic "reflect: NumIn of non-func type"
  end.

Definition NumOut (t : GoType) : Outcome Z :=
  match signature t with
  | Some (_, _, outs) => Ret (Z.of_nat (length outs))
  | None => Panic "reflect: NumOut of non-func type"
  end.

Definition IsVariadic (t : GoType) : Outcome bool :=
  match signature t with
  | Some (_, v, _) => Ret v
  | None => Panic "reflect: IsVariadic of non-func type"
  end.

Definition In (t : GoType) (i : Z) : Outcome GoType :=
  match signature t with
  | Some (ins, _, _) =>
      if i <? 0 then Panic "reflect: Func index out of bounds"
      else match ins !! Z.to_nat i with
           | Some ti => Ret ti
           | None => Panic "reflect: Func index out of bounds"
           end
  | None => Panic "reflect: In of non-func type"
  end.

Definition Out (t : GoType) (i : Z) : Outcome GoType :=
  match signature t with
  | Some (_, _, outs) =>
      if i <? 0 then Panic "reflect: Func index out of bounds"
      else match outs !! Z.to_nat i with
           | Some ti => Ret ti
           | None => Panic "reflect: Func index out of bounds"
           end
  | None => Panic "reflect: Out of non-func type"
  end.

(** [t.Elem()], which the code calls on the last parameter of a variadic
    function only. *)
Fixpoint Elem (t : GoType) : Outcome GoType :=
  match t with
  | TSlice e => Ret e
  | TDefined _ _ _ u => Elem u
  | _ => Panic "reflect: Elem of invalid type"
  end.

(** *** Signature formatting *)

Definition typeName (t : GoType) : string :=
  let n := type_string t in
  if decide (n = "interface {}") then "{}"
  else if decide (n = "[]interface {}") then "[]{}"
  else if decide (n = "[]uint8") then "[]byte"
  else n.

Definition variadicName (t : GoType) : string :=
  let n := type_string t in
  let n := replace_first "[]" "" n in
  let n := if decide (n = "interface {}") then "{}"
           else if decide (n = "[]uint8") then "[]byte"
           else n in
  "..." +:+ n.

Definition concat_strings (xs : list string) : string :=
  foldr String.append "" xs.

(** The buffer writes of [Format], in order.  Both loops run over the
    parameter, respectively result, indices; a type of kind function
    has a signature. *)
Definition Format (name : string) (v : Value) : Outcome string :=
  t ← typeof v;
  if negb (bool_decide (type_kind t = Func_)) then
    Ret (name +:+ " : " +:+ typeName t)
  else
    match signature t with
    | Some (ins, variadic, outs) =>
        let in_ := Z.of_nat (length ins) in
        let last := in_ - 1 in
        let params := imap (fun i it =>
          if Z.of_nat i =? last then
            (if variadic then variadicName it else typeName it) +:+ " => "
          else typeName it +:+ " -> ") ins in
        let out := Z.of_nat (length outs) in
        let invalidRetval := concat_strings (imap (fun i ot =>
          typeName ot +:+ (if negb (Z.of_nat i =? out - 1) then " -> " else "")) outs) in
        let retval :=
          match outs with
          | [] => "()"
          | [o0] => if decide (type_name o0 = "error") then "()" else typeName o0
          | [o0; o1] =>
              if decide (type_name o0 = "error") then invalidRetval
              else if negb (bool_decide (type_name o1 = "error")) then invalidRetval
              else typeName o0
          | _ => invalidRetval
          end in
        Ret (name +:+ " :: " +:+ concat_strings params +:+ retval)
    | None => Panic "reflect: NumIn of non-func type"
    end.

(** *** Errors *)

(** [TypeError.setFn], on a pointer receiver. *)
Definition setFn (e : Error) (name : string) (fn : Value) : Error :=
  match e with
  | ETwikTypeError _ _ got want => ETwikTypeError name fn got want
  | _ => e
  end.

Definition NewTypeError (got : Value) (want : list string) : Error :=
  ETwikTypeError "" VNil got want.

Definition newParamError (name : string) (v : Value) : Outcome Error :=
  sig ← Format name v;
  Ret (ENew ("Incorrect number of parameters to function " +:+ name +:+ "."
             +:+ nl +:+ nl +:+ tab +:+ sig +:+ ".")).

(** *** The adapter *)

(** A host function: the value handed to [Func] and what calling it
    through [reflect.Value.Call] yields. *)
Record HostFunc := {
  hf_value : Value;
  hf_call : list Value -> list Value
}.

(** What one [invoke] did: the argument vectors the host function was
    called with (at most one), and how the call ended. *)
Record Invocation := {
  calls : list (list Value);
  result : Outcome (Value * option Error)
}.

Definition funcReturn (name : string) (f : Value)
    : Outcome (list Value -> Outcome (Value * option Error)) :=
  t ← typeof f;
  out ← NumOut t;
  if out =? 0 then
    Ret (fun _ => Ret (VNil, None))
  else if out =? 1 then
    o0 ← Out t 0;
    if negb (bool_decide (type_name o0 = "error")) then
      Ret (fun vo => v ← index vo 0; Ret (v, None))
    else
      Ret (fun vo =>
        v0 ← index vo 0;
        match as_error v0 with
        | Some err =>
            match err with
            | ETwikTypeError _ _ _ _ => Ret (VNil, Some (setFn err name f))
            | _ => Ret (VNil, Some err)
            end
        | None => Ret (VNil, None)
        end)
  else if out =? 2 then
    o1 ← Out t 1;
    if negb (bool_decide (type_name o1 = "error")) then
      Panic "Func: second return value of f can only be an error"
    else
      Ret (fun vo =>
        v ← index vo 0;
        v0 ← index vo 0;
        match as_error v0 with
        | Some err =>
            match err with
            | ETwikTypeError _ _ _ _ => Ret (VNil, Some (setFn err name f))
            | _ => Ret (v, Some err)
            end
        | None => Ret (v, None)
        end)
  else Panic "Func: f can only return at most two values".

Definition funcAccepts (ft : GoType) (it : option GoType) : Outcome bool :=
  if bool_decide (type_kind ft = Interface) then
    match it with
    | Some it => Ret (implements it ft)
    | None => Panic "invalid memory address or nil pointer dereference"
    end
  else Ret (bool_decide (Some ft = it)).

(** The part of an invoke that precedes the call: either an early return
    ([inr]) or the argument vector to call with ([inl]). *)
Definition finish (f : HostFunc)
    (ret : list Value -> Outcome (Value * option Error))
    (pre : Outcome (list Value + Value * option Error)) : Invocation :=
  match pre with
  | Panic msg => {| calls := []; result := Panic msg |}
  | Ret (inr r) => {| calls := []; result := Ret r |}
  | Ret (inl vi) => {| calls := [vi]; result := ret (hf_call f vi) |}
  end.

Definition funcVariadic (name : string) (f : HostFunc)
    : Outcome (list Value -> Invocation) :=
  ret ← funcReturn name (hf_value f);
  t ← typeof (hf_value f);
  in_ ← NumIn t;
  let last := in_ - 1 in
  Ret (fun args =>
    let n := Z.of_nat (length args) in
    finish f ret (
      if n <? last then
        e ← newParamError name (hf_value f);
        Ret (inr (VNil, Some e))
      else
        let vi := replicate (Z.to_nat n) VNil in
        r ← for_loop (Z.to_nat last) 0 (fun i vi =>
               ti ← In t i;
               a ← index args i;
               ok ← funcAccepts ti (TypeOf a);
               if negb ok then
                 Ret (inr (VNil, Some (ETwikTypeError name (hf_value f) a [typeName ti])))
               else Ret (inl (<[Z.to_nat i := a]> vi))) vi;
        match r with
        | inr early => Ret (inr early)
        | inl vi =>
            for_loop (Z.to_nat (n - last)) last (fun i vi =>
               tl ← In t last;
               el ← Elem tl;
               a ← index args i;
               ok ← funcAccepts el (TypeOf a);
               if negb ok then
                 ti ← In t i;
                 Ret (inr (VNil, Some (ETwikTypeError name (hf_value f) a [typeName ti])))
               else Ret (inl (<[Z.to_nat i := a]> vi))) vi
        end)).

(** [vi] is allocated once per wrapper and overwritten in full before
    every call, so a fresh vector per invoke is the same. *)
Definition funcStandard (name : string) (f : HostFunc)
    : Outcome (list Value -> Invocation) :=
  ret ← funcReturn name (hf_value f);
  t ← typeof (hf_value f);
  in_ ← NumIn t;
  let vi := replicate (Z.to_nat in_) VNil in
  Ret (fun args =>
    finish f ret (
      if negb (Z.of_nat (length args) =? in_) then
        e ← newParamError name (hf_value f);
        Ret (inr (VNil, Some e))
      else
        for_loop (Z.to_nat in_) 0 (fun i vi =>
           ti ← In t i;
           a ← index args i;
           ok ← funcAccepts ti (TypeOf a);
           if negb ok then
             Ret (inr (VNil, Some (ETwikTypeError name (hf_value f) a [typeName ti])))
           else Ret (inl (<[Z.to_nat i := a]> vi))) vi)).

Definition Func (name : string) (f : HostFunc)
    : Outcome (list Value -> Invocation) :=
  t ← typeof (hf_value f);
  if negb (bool_decide (type_kind t = Func_)) then
    Panic "Func: f must be a function"
  else
    IsVariadic t ≫= fun variadic : bool =>
    if variadic then funcVariadic name f else funcStandard name f.

(** *** executer.go *)

Record Executer := {
  scope : gmap string Value;
  funcs : gmap string bool
}.

(** [e.funcs[key]]: false for a missing key. *)
Definition is_func (e : Executer) (key : string) : bool :=
  default false (funcs e !! key).

Definition Executer_Set (e : Executer) (key : string) (value : Value)
    : Executer * option Error :=
  if is_func e key then
    (e, Some (ENew "function with that name already exists"))
  else
    let '(_, err) := twik.Get (scope e) key in
    match err with
    | None =>
        let '(s, err) := twik.Set_ (scope e) key value in
        ({| scope := s; funcs := funcs e |}, err)
    | Some _ =>
        let '(s, err) := twik.Create (scope e) key value in
        ({| scope := s; funcs := funcs e |}, err)
    end.

Definition Executer_Get (e : Executer) (key : string) : Value * option Error :=
  if is_func e key then
    (VNil, Some (ENew "functions cannot be gotten"))
  else twik.Get (scope e) key.

Definition Executer_Has (e : Executer) (key : string) : bool :=
  if is_func e key then false
  else
    let '(v, err) := twik.Get (scope e) key in
    match err with
    | None => negb (is_nil v)
    | Some _ => false
    end.


(** *** executer.go: functions in the scope *)

(** The type of the closure that [Func] returns. *)
Definition tInvoke : GoType := TFunc [TSlice tAny] false [tAny; tError].

Definition func_id (v : Value) : N :=
  match v with VOther _ id => id | _ => 0%N end.

(** The closure that [Func] returns, as a value in the scope; closures
    are told apart by the host function they wrap. *)
Definition wrapper_of (f : HostFunc) : Value :=
  VOther tInvoke (func_id (hf_value f)).

(** [Func(key, fn)] is evaluated first and can panic. *)
Definition Executer_Create (e : Executer) (key : string) (fn : HostFunc)
    : Outcome (Executer * option Error) :=
  _ ← Func key fn;
  let '(s, err) := twik.Create (scope e) key (wrapper_of fn) in
  match err with
  | Some err => Ret (e, Some err)
  | None => Ret ({| scope := s; funcs := <[key := true]> (funcs e) |}, None)
  end.

Definition Executer_Override (e : Executer) (key : string) (fn : HostFunc)
    : Outcome (Executer * option Error) :=
  if negb (is_func e key) then
    Ret (e, Some (ENew "no function by that name exists"))
  else
    _ ← Func key fn;
    let '(s, err) := twik.Set_ (scope e) key (wrapper_of fn) in
    Ret ({| scope := s; funcs := funcs e |}, err).

(** *** twik.go: FuncMap *)

(** [FuncMap]: a map from names to host functions; an entry can be nil.
    [range] yields the entries in an order that is not specified: the
    [_in] functions take the order one iteration yields, the others use
    the order of [map_to_list]. *)

Definition FuncMap_Import_in (order : list (string * HostFunc))
    (fm : gmap string HostFunc) : gmap string HostFunc :=
  foldl (fun fm kv => <[kv.1 := kv.2]> fm) fm order.

Definition FuncMap_Import (fm o : gmap string HostFunc) : gmap string HostFunc :=
  FuncMap_Import_in (map_to_list o) fm.

(** The error of [s.Create] is dropped. *)
Fixpoint FuncMap_Export_in (order : list (string * HostFunc))
    (s : gmap string Value) : Outcome (gmap string Value) :=
  match order with
  | [] => Ret s
  | (k, v) :: rest =>
      if negb (is_nil (hf_value v)) then
        _ ← Func k v;
        FuncMap_Export_in rest (twik.Create s k (wrapper_of v)).1
      else FuncMap_Export_in rest s
  end.

Definition FuncMap_Export (fm : gmap string HostFunc) (s : gmap string Value)
    : Outcome (gmap string Value) :=
  FuncMap_Export_in (map_to_list fm) s.

Definition FuncMap_Keys_in (order : list string) : list string :=
  sort_Strings order.

Definition FuncMap_Keys (fm : gmap string HostFunc) : list string :=
  FuncMap_Keys_in (map_to_list fm).*1.

(** [fm[k]], nil for a missing name. *)
Definition FuncMap_get (fm : gmap string HostFunc) (k : string) : Value :=
  match fm !! k with
  | Some f => hf_value f
  | None => VNil
  end.

(** The loop of [FormatList] over the sorted names. *)
Fixpoint format_each (fm : gmap string HostFunc) (xs : list string)
    : Outcome (list string) :=
  match xs with
  | [] => Ret []
  | k :: rest =>
      line ← Format k (FuncMap_get fm k);
      lines ← format_each fm rest;
      Ret (line :: lines)
  end.

Definition FuncMap_FormatList_in (order : list string)
    (fm : gmap string HostFunc) : Outcome (list string) :=
  format_each fm (FuncMap_Keys_in order).

Definition FuncMap_FormatList (fm : gmap string HostFunc) : Outcome (list string) :=
  FuncMap_FormatList_in (map_to_list fm).*1 fm.

(** [New]: [globals] is the scope after [twik.NewScope] and the loader,
    [fns] what the loader returned.  Every name of [fns] is marked as a
    function before the export. *)
Definition New_in (order : list (string * HostFunc))
    (globals : gmap string Value) (fns : gmap string HostFunc) : Outcome Executer :=
  let keys := (fun _ => true) <$> fns in
  s ← FuncMap_Export_in order globals;
  Ret {| scope := s; funcs := keys |}.

Definition New (globals : gmap string Value) (fns : gmap string HostFunc)
    : Outcome Executer :=
  New_in (map_to_list fns) globals fns.

(** [TypeError.Error] of twik.go, on the fields of the error. *)
Definition enumerate (Want : list string) : Outcome string :=
  match Want with
  | [w] => Ret w
  | [w0; w1] => Ret (w0 +:+ " or " +:+ w1)
  | _ =>
      let last := Z.of_nat (length Want) - 1 in
      let firsts := concat_strings ((fun w => w +:+ ", ") <$> take (Z.to_nat last) Want) in
      w ← index Want last;
      Ret (firsts +:+ "or " +:+ w)
  end.

Definition TypeError_Error (Name : string) (Fn Got : Value) (Want : list string)
    : Outcome string :=
  t ← typeof Got;
  wants ← enumerate Want;
  sig ← Format Name Fn;
  Ret ("Incorrect parameter type to function " +:+ Name +:+ "." +:+ nl +:+ nl
       +:+ tab +:+ "Got type " +:+ typeName t +:+ " but need type " +:+ wants
       +:+ "." +:+ nl +:+ tab +:+ sig).

End twikutil.

(* ===================================================================== *)
(** ** Package key                                                         *)
(* ===================================================================== *)

Module key.

Import twikutil.

(** *** Typers *)

(** The [Typer] interface. *)
Record Typer := {
  Typer_String : string;
  Coerce : Value -> Outcome (Value * option Error)
}.

(** What a key's [typer] field or the [typer] argument of [Check] can
    hold: a [reflect.Type], a [Typer], or any other value. *)
Inductive Descriptor : Type :=
  | DType (t : GoType)
  | DTyper (T : Typer)
  | DOther (v : Value).

Definition IsTyper (v : Descriptor) : bool :=
  match v with
  | DType _ | DTyper _ => true
  | DOther _ => false
  end.

(** An argument of static type [interface{}] that the callee inspects
    with a type switch on [reflect.Type]. *)
Inductive Any : Type :=
  | AType (t : GoType)
  | AValue (v : Value).

(** A [reflect.Type] converted to [interface{}]; the nil type becomes the
    nil interface. *)
Definition of_type (t : option GoType) : Any :=
  match t with
  | Some t => AType t
  | None => AValue VNil
  end.

Definition NewTypeError (name : string) (got wants : Any) : Outcome Error :=
  let Got := match got with
             | AType t => Some t
             | AValue t => TypeOf t
             end in
  Wants ← match wants with
          | AType w => Ret (type_string w)
          | AValue (VString w) => Ret w
          | AValue w => t ← typeof w; Ret (type_string t)
          end;
  Ret (EKeyType true name Got Wants).

(** The struct behind [TyperFunc]. *)
Record typer := {
  s : string;
  fn : Value -> Value * option Error
}.

(** [v, err := t.fn(v)] assigns the parameter [v]: from there on [v] is
    what [fn] returned. *)
Definition typer_Coerce (t : typer) (v : Value) : Outcome (Value * option Error) :=
  let '(v, err) := fn t v in
  if err_is err ErrCatch then
    e ← NewTypeError "" (of_type (TypeOf v)) (AValue (VString (s t)));
    Ret (v, Some e)
  else Ret (v, err).

Definition TyperFunc (id : string) (f : Value -> Value * option Error) : Typer :=
  let t := {| s := id; fn := f |} in
  {| Typer_String := s t; Coerce := typer_Coerce t |}.

Definition Anything : GoType := tAny.

(** Float coerces float32 to float64; the conversion is exact. *)
Definition Float : Typer :=
  TyperFunc "float" (fun v =>
    match v with
    | VFloat64 t => (VFloat64 t, None)
    | VFloat32 t => (VFloat64 t, None)
    | _ => (VNil, Some (ESentinel ErrCatch))
    end).

(** Integer coerces int16, int32, int64 to int. *)
Definition Integer : Typer :=
  TyperFunc "integer" (fun v =>
    match v with
    | VInt t => (VInt t, None)
    | VInt64 t => (VInt (wrap_int t), None)
    | VInt32 t => (VInt (wrap_int t), None)
    | VInt16 t => (VInt (wrap_int t), None)
    | _ => (VNil, Some (ESentinel ErrCatch))
    end).

(** [TypeError.Error]; [%v] prints the nil type as [<nil>]. *)
Definition TypeError_Error (Name : string) (Got : option GoType) (Wants : string) : string :=
  Name +:+ ": value (type " +:+
  match Got with Some t => type_string t | None => "<nil>" end +:+
  ") is not of type " +:+ Wants.

(** *** Modes *)

Definition Mode := Z.
Definition Reserved : Mode := 0.
Definition Read : Mode := 1.
Definition Write : Mode := 2.
Definition Required : Mode := 4.
Definition ReadWrite : Mode := Z.lor Read Write.

(** *** Check *)

Definition chkType (name : string) (v : Value) (t : GoType) : Outcome (option Error) :=
  let vt := TypeOf v in
  if bool_decide (type_kind t = Interface) then
    vt' ← typeof v;
    if negb (implements vt' t) then
      Ret (Some (EKeyImplements false name vt (type_string t)))
    else Ret None
  else if negb (bool_decide (vt = Some t)) then
    e ← NewTypeError name (of_type vt) (AType t);
    Ret (Some e)
  else Ret None.

Definition Check (name : string) (typer : Descriptor) (v : Value)
    : Outcome (Value * option Error) :=
  match typer with
  | DType t =>
      err ← chkType name v t;
      Ret (v, err)
  | DTyper t =>
      r ← Coerce t v;
      let '(v, err) := r in
      match err with
      | Some (EKeyType true Name Got Wants) =>
          Ret (v, Some (EKeyType true (if decide (Name = "") then name else Name) Got Wants))
      | Some (EKeyImplements true Name Got Wants) =>
          Ret (v, Some (EKeyImplements true (if decide (Name = "") then name else Name) Got Wants))
      | _ => Ret (v, err)
      end
  | DOther _ => Ret (VNil, Some (ESentinel ErrNotTyper))
  end.

(** *** Keys *)

Record Key := {
  name : string;
  desc : string;
  mode : Mode;
  typer_ : Descriptor;
  val : Value
}.

Definition with_val (k : Key) (v : Value) : Key :=
  {| name := name k; desc := desc k; mode := mode k; typer_ := typer_ k; val := v |}.

Definition Key_SetMode (k : Key) (m : Mode) : Key :=
  {| name := name k; desc := desc k; mode := m; typer_ := typer_ k; val := val k |}.

Definition Key_Empty (k : Key) : bool := is_nil (val k).
Definition Key_Get (k : Key) : Value := val k.
Definition Key_GetOr (k : Key) (def : Value) : Value :=
  if is_nil (val k) then def else val k.

Definition Key_Set (k : Key) (v : Value) : Outcome (Key * option Error) :=
  if negb (is_nil v) then
    r ← Check (name k) (typer_ k) v;
    let '(v, err) := r in
    match err with
    | Some err => Ret (k, Some err)
    | None => Ret (with_val k v, None)
    end
  else Ret (with_val k v, None).

(** [New] hands back the key together with the error of [Set]. *)
Definition New (name : string) (typer : Descriptor) (def : Value) (m : Mode)
    (desc : string) : Outcome (option Key * option Error) :=
  if negb (IsTyper typer) then Ret (None, Some (ESentinel ErrNotTyper))
  else
    let k := {| name := name; desc := desc; mode := m; typer_ := typer; val := VNil |} in
    r ← Key_Set k def;
    Ret (Some r.1, r.2).

Definition NewAuto (name : string) (def : Value) (m : Mode) (desc : string)
    : option Key * option Error :=
  if is_nil def then (None, Some (ESentinel ErrMissingValue))
  else
    (Some {| name := name; desc := desc; mode := m;
             typer_ := match TypeOf def with
                       | Some t => DType t
                       | None => DOther VNil
                       end;
             val := def |},
     None).

(** The synchronisation operations take the key and the executer and
    hand both back with the error. *)

Definition Key_Acquire (k : Key) (e : Executer) : Outcome (Key * Executer * option Error) :=
  if Z.land (mode k) Read =? 0 then Ret (k, e, None)
  else if negb (Executer_Has e (name k)) then
    if negb (Z.land (mode k) Required =? 0) then
      Ret (k, e, Some (EKeyRequired (name k)))
    else Ret (k, e, None)
  else
    let '(v, _) := Executer_Get e (name k) in
    r ← Key_Set k v;
    Ret (r.1, e, r.2).

Definition Key_Apply (k : Key) (e : Executer) : Key * Executer * option Error :=
  if Z.land (mode k) Write =? 0 then (k, e, None)
  else if negb (Executer_Has e (name k)) then
    let '(e, err) := Executer_Set e (name k) (val k) in (k, e, err)
  else (k, e, None).

Definition Key_ApplyOrNil (k : Key) (e : Executer) : Key * Executer * option Error :=
  if Z.land (mode k) Write =? 0 then
    let '(e, err) := Executer_Set e (name k) VNil in (k, e, err)
  else if negb (Executer_Has e (name k)) then
    let '(e, err) := Executer_Set e (name k) (val k) in (k, e, err)
  else (k, e, None).

Definition Key_Clobber (k : Key) (e : Executer) : Key * Executer * option Error :=
  if Z.land (mode k) Write =? 0 then (k, e, None)
  else
    let '(e, err) := Executer_Set e (name k) (val k) in (k, e, err).


(** *** Batches of keys *)

(** [Keys]: a slice of pointers to keys.  The operations change the keys
    in place, so each hands the slice back. *)

(** [h] is called on the result of every key, also on nil. *)
Fixpoint Keys_Acquire (ks : list Key) (e : Executer)
    (h : option Error -> option Error)
    : Outcome (list Key * Executer * option Error) :=
  match ks with
  | [] => Ret ([], e, None)
  | k :: rest =>
      r ← Key_Acquire k e;
      let '(k, e, err) := r in
      match h err with
      | Some err => Ret (k :: rest, e, Some err)
      | None =>
          r ← Keys_Acquire rest e h;
          let '(rest, e, err) := r in
          Ret (k :: rest, e, err)
      end
  end.

Fixpoint Keys_Apply (ks : list Key) (e : Executer)
    : list Key * Executer * option Error :=
  match ks with
  | [] => ([], e, None)
  | k :: rest =>
      let '(k, e, err) := Key_Apply k e in
      match err with
      | Some err => (k :: rest, e, Some err)
      | None =>
          let '(rest, e, err) := Keys_Apply rest e in
          (k :: rest, e, err)
      end
  end.

Fixpoint Keys_ApplyOrNil (ks : list Key) (e : Executer)
    : list Key * Executer * option Error :=
  match ks with
  | [] => ([], e, None)
  | k :: rest =>
      let '(k, e, err) := Key_ApplyOrNil k e in
      match err with
      | Some err => (k :: rest, e, Some err)
      | None =>
          let '(rest, e, err) := Keys_ApplyOrNil rest e in
          (k :: rest, e, err)
      end
  end.

Fixpoint Keys_Clobber (ks : list Key) (e : Executer)
    : list Key * Executer * option Error :=
  match ks with
  | [] => ([], e, None)
  | k :: rest =>
      let '(k, e, err) := Key_Clobber k e in
      match err with
      | Some err => (k :: rest, e, Some err)
      | None =>
          let '(rest, e, err) := Keys_Clobber rest e in
          (k :: rest, e, err)
      end
  end.

(** *** KeyMap *)

(** [sort.Sort] on [Keys], whose [Less] compares names. *)
Definition name_le (a b : Key) : Prop := string_le (name a) (name b).

#[export] Instance name_le_dec : RelDecision name_le.
Proof. intros a b. unfold name_le. apply _. Defined.

Definition sort_Keys (ks : list Key) : list Key :=
  merge_sort name_le ks.

(** [km[name] != nil]; [New] never returns neither key nor error. *)
Definition KeyMap_Create (km : gmap string Key) (name : string)
    (typer : Descriptor) (def : Value) (m : Mode) (desc : string)
    : Outcome (gmap string Key * option Key * option Error) :=
  match km !! name with
  | Some _ => Ret (km, None, Some (ESentinel ErrKeyExists))
  | None =>
      r ← New name typer def m desc;
      match r with
      | (_, Some err) => Ret (km, None, Some err)
      | (Some k, None) => Ret (<[name := k]> km, Some k, None)
      | (None, None) => Ret (km, None, None)
      end
  end.

Definition KeyMap_CreateAuto (km : gmap string Key) (name : string)
    (def : Value) (m : Mode) (desc : string)
    : gmap string Key * option Key * option Error :=
  match km !! name with
  | Some _ => (km, None, Some (ESentinel ErrKeyExists))
  | None =>
      match NewAuto name def m desc with
      | (_, Some err) => (km, None, Some err)
      | (Some k, None) => (<[name := k]> km, Some k, None)
      | (None, None) => (km, None, None)
      end
  end.

(** [range km] yields the entries in an order that is not specified:
    [KeyNames_in] and [Keys_in] take the names, respectively the keys, in
    the order one iteration yields them; [KeyNames] and [KeyMap_Keys] use
    the order of [map_to_list]. *)
Definition KeyNames_in (order : list string) : list string :=
  sort_Strings order.

Definition KeyNames (km : gmap string Key) : list string :=
  KeyNames_in (map_to_list km).*1.

Definition Keys_in (order : list Key) : list Key := sort_Keys order.

Definition KeyMap_Keys (km : gmap string Key) : list Key :=
  Keys_in (map_to_list km).*2.

End key.

(* ===================================================================== *)
(** ** Sample host functions                                               *)
(* ===================================================================== *)

Module AdapterSpec.

Import twikutil.

(** A host function with the given signature and behaviour. *)
Definition host (id : N) (ins : list GoType) (variadic : bool) (outs : list GoType)
    (call : list Value -> list Value) : HostFunc :=
  {| hf_value := VOther (TFunc ins variadic outs) id; hf_call := call |}.

(** func(string) ([]byte, error) *)
Definition readFile : HostFunc :=
  host 1 [TBasic String_] false [TSlice (TBasic Uint8); tError]
    (fun _ => [VOther (TSlice (TBasic Uint8)) 9; VNil]).

(** func(string) (int, error), failing on every input *)
Definition parsePort : HostFunc :=
  host 2 [TBasic String_] false [TBasic Int; tError]
    (fun _ => [VInt 0; VError (ENew "invalid port")]).

(** func(string, ...int) *)
Definition logf : HostFunc :=
  host 3 [TBasic String_; TSlice (TBasic Int)] true [] (fun _ => []).

(** type Handler func(string) error, and a value of that type *)
Definition tHandler : GoType :=
  TDefined "main.Handler" "Handler" [] (TFunc [TBasic String_] false [tError]).

Definition handler : HostFunc :=
  {| hf_value := VOther tHandler 4; hf_call := fun _ => [VNil] |}.

(** [funcAccepts] says yes: the argument may be passed for the
    parameter. *)
Definition accepted (ft : GoType) (a : Value) : Prop :=
  funcAccepts ft (TypeOf a) = Ret true.

(** The body of the loop over the trailing arguments of a variadic
    function with leading parameters [lead] and element type [el]. *)
Definition trailing_body name fv lead el outs (args : list Value)
    : Z -> list Value -> Outcome (list Value + Value * option Error) :=
  fun i vi =>
    tl ← In (TFunc (lead ++ [TSlice el]) true outs)
           (Z.of_nat (length (lead ++ [TSlice el])) - 1);
    et ← Elem tl;
    a ← index args i;
    ok ← funcAccepts et (TypeOf a);
    if negb ok then
      ti ← In (TFunc (lead ++ [TSlice el]) true outs) i;
      Ret (inr (VNil, Some (ETwikTypeError name fv a [typeName ti])))
    else Ret (inl (<[Z.to_nat i := a]> vi)).

End AdapterSpec.

(* ===================================================================== *)
(** ** Key invariants, sample keys and executers                           *)
(* ===================================================================== *)

Module KeySpec.
Import twikutil key.

(** The stored value is nil or passes [Check] again, unchanged. *)
Definition conforms (k : Key) : Prop :=
  Key_Get k = VNil \/
  Check (name k) (typer_ k) (Key_Get k) = Ret (Key_Get k, None).

(** A coercion rule that accepts each of its non-nil results as it is. *)
Definition idempotent (d : Descriptor) : Prop :=
  match d with
  | DTyper T =>
      forall v v', Coerce T v = Ret (v', None) -> v' <> VNil ->
                   Coerce T v' = Ret (v', None)
  | _ => True
  end.

(** The keys the package's constructors and operations can produce. *)
Inductive reachable : Key -> Prop :=
  | reach_New n t d m ds k err :
      New n t d m ds = Ret (Some k, err) -> reachable k
  | reach_NewAuto n d m ds k err :
      NewAuto n d m ds = (Some k, err) -> reachable k
  | reach_Set k v k' err :
      reachable k -> Key_Set k v = Ret (k', err) -> reachable k'
  | reach_Acquire k e k' e' err :
      reachable k -> Key_Acquire k e = Ret (k', e', err) -> reachable k'
  | reach_Apply k e : reachable k -> reachable (Key_Apply k e).1.1
  | reach_ApplyOrNil k e : reachable k -> reachable (Key_ApplyOrNil k e).1.1
  | reach_Clobber k e : reachable k -> reachable (Key_Clobber k e).1.1
  | reach_SetMode k m : reachable k -> reachable (Key_SetMode k m).

(** [Apply] of a writable key keeps every existing binding. *)
Definition Apply_keeps_bindings : Prop :=
  forall k e, Z.land (mode k) Write <> 0 -> is_Some (scope e !! name k) ->
              (Key_Apply k e).1.2 = e.

Definition reachable_keys_conform : Prop :=
  forall k, reachable k -> conforms k.

Definition emptyEnv : Executer := {| scope := ∅; funcs := ∅ |}.
Definition nilEnv : Executer := {| scope := {[ "retries" := VNil ]}; funcs := ∅ |}.
Definition fiveEnv : Executer := {| scope := {[ "retries" := VInt32 5 ]}; funcs := ∅ |}.

(** An executer in which "retries" is the name of an exported function. *)
Definition funcEnv : Executer :=
  {| scope := {[ "retries" := VOther (TFunc [TSlice tAny] false [tAny; tError]) 7 ]};
     funcs := {[ "retries" := true ]} |}.

(** An executer in which "retries" is reserved as the name of a function
    and bound to nil: what [New] gives for a loader that binds the name
    to nil in the scope and returns a map with a nil entry for it. *)
Definition nilFuncEnv : Executer :=
  {| scope := {[ "retries" := VNil ]}; funcs := {[ "retries" := true ]} |}.

Definition retries (m : Mode) : Key :=
  {| name := "retries"; desc := "number of attempts"; mode := m;
     typer_ := DTyper Integer; val := VInt 3 |}.

(** A rule that maps a string to its length and rejects the rest. *)
Definition Length : Typer :=
  TyperFunc "length" (fun v =>
    match v with
    | VString t => (VInt (Z.of_nat (String.length t)), None)
    | _ => (VNil, Some (ESentinel ErrCatch))
    end).

Definition width : Key :=
  {| name := "width"; desc := ""; mode := Reserved;
     typer_ := DTyper Length; val := VInt 6 |}.

End KeySpec.

(* ===================================================================== *)
(** ** Further invariants                                                  *)
(* ===================================================================== *)

Module ExtraSpec.
Import twikutil key KeySpec.

(** What a key stores, by descriptor: nil, or a value of exactly the
    descriptor's type (one that implements it, for an interface type), or
    a result of the descriptor's coercion rule. *)
Definition stored_ok (k : Key) : Prop :=
  val k = VNil \/
  match typer_ k with
  | DType t =>
      exists vt, TypeOf (val k) = Some vt /\
        if bool_decide (type_kind t = Interface) then implements vt t = true
        else vt = t
  | DTyper T => exists v, Coerce T v = Ret (val k, None)
  | DOther _ => False
  end.

(** The number an Integer rule input stands for, as an int; the number
    a Float rule input stands for. *)
Definition as_int (v : Value) : option Z :=
  match v with
  | VInt z => Some z
  | VInt16 z | VInt32 z | VInt64 z => Some (wrap_int z)
  | _ => None
  end.

Definition as_float (v : Value) : option spec_float :=
  match v with
  | VFloat64 f | VFloat32 f => Some f
  | _ => None
  end.

(** The shape shared by the batch operations that do not change keys:
    apply [op] to each key in turn, threading the executer, and stop at
    the first error. *)
Fixpoint batch (op : Key -> Executer -> Key * Executer * option Error)
    (ks : list Key) (e : Executer) : list Key * Executer * option Error :=
  match ks with
  | [] => ([], e, None)
  | k :: rest =>
      let '(k, e, err) := op k e in
      match err with
      | Some err => (k :: rest, e, Some err)
      | None =>
          let '(rest, e, err) := batch op rest e in
          (k :: rest, e, err)
      end
  end.

Definition writable (k : Key) : Prop := Z.land (mode k) Write <> 0.

(** A second sample key, of exact type int. *)
Definition timeout : Key :=
  {| name := "timeout"; desc := "seconds"; mode := ReadWrite;
     typer_ := DType (TBasic Int); val := VInt 30 |}.

(** A key map with the two sample keys, and a function map with two
    sample functions. *)
Definition twoKeys : gmap string Key :=
  {[ "timeout" := timeout; "retries" := retries Read ]}.

Definition twoFuncs : gmap string HostFunc :=
  {[ "read" := AdapterSpec.readFile; "log" := AdapterSpec.logf ]}.

(** An executer that binds "retries" to a string and "timeout" to an
    int. *)
Definition mixedEnv : Executer :=
  {| scope := {[ "retries" := VString "many"; "timeout" := VInt 10 ]};
     funcs := ∅ |}.

(** Every key of the map is stored under its own name. *)
Definition km_named (km : gmap string Key) : Prop :=
  forall n k, km !! n = Some k -> name k = n.

(** What a scope binds a name to after an export of [fm]: what it bound
    before, or else the wrapper of the name's entry, unless that is nil. *)
Definition exported (fm : gmap string HostFunc) (s : gmap string Value)
    (n : string) : option Value :=
  match s !! n with
  | Some v => Some v
  | None =>
      match fm !! n with
      | Some f => if is_nil (hf_value f) then None else Some (wrapper_of f)
      | None => None
      end
  end.

(** A nil entry of a [FuncMap]. *)
Definition nilEntry : HostFunc := {| hf_value := VNil; hf_call := fun _ => [] |}.

(** The text of a parameter type error: function name, type got, types
    wanted, signature. *)
Definition mismatch_message (fname got wants sig : string) : string :=
  "Incorrect parameter type to function " +:+ fname +:+ "." +:+ nl +:+ nl
  +:+ tab +:+ "Got type " +:+ got +:+ " but need type " +:+ wants
  +:+ "." +:+ nl +:+ tab +:+ sig.

End ExtraSpec.

(* ===================================================================== *)
(** ** Properties of the function adapter                                  *)
(* ===================================================================== *)

Module AdapterProps.

Import twikutil AdapterSpec.


(** The types of kind function are those with a signature: function
    types and the types defined from them. *)
Lemma kind_Func_signature t :
  type_kind t = Func_ <-> is_Some (signature t).
Proof.
  induction t as [b|el _|ins variadic outs|str nm ms u IH|str nm k ms]; simpl.
  - split; [discriminate | intros [x Hx]; discriminate].
  - split; [discriminate | intros [x Hx]; discriminate].
  - split; [eauto | reflexivity].
  - exact IH.
  - split; [destruct k; discriminate | intros [x Hx]; discriminate].
Qed.

(** [Format] reads a defined function type through its signature, and
    so prints it like the type it is defined from. *)
Lemma Format_defined name str nm ms u id id' :
  type_kind u = Func_ ->
  Format name (VOther (TDefined str nm ms u) id) = Format name (VOther u id').
Proof.
  intros Hk. unfold Format. simpl. now rewrite Hk.
Qed.

Lemma Format_handler :
  Format "a" (hf_value handler) = Ret "a :: string => ()".
Proof. reflexivity. Qed.

(** [reflect.TypeOf] of a value other than nil has a receiver. *)
Lemma typeof_Some v t : TypeOf v = Some t -> typeof v = Ret t.
Proof. intros Ht. unfold typeof. now rewrite Ht. Qed.


Lemma Func_variadic name f ins outs :
  TypeOf (hf_value f) = Some (TFunc ins true outs) ->
  Func name f = funcVariadic name f.
Proof.
  intros Ht. unfold Func. rewrite (typeof_Some _ _ Ht). reflexivity.
Qed.

(** *** Loops *)

(** A loop invariant rule for [for_loop]: when every iteration continues
    and keeps the invariant, the loop runs to its end. *)
Lemma for_loop_inv {St R} (I : Z -> St -> Prop) (body : Z -> St -> Outcome (St + R)) :
  forall (n : nat) (i : Z) (s : St),
    I i s ->
    (forall j s, i <= j < i + Z.of_nat n -> I j s ->
       exists s', body j s = Ret (inl s') /\ I (j + 1) s') ->
    exists s', for_loop n i body s = Ret (inl s') /\ I (i + Z.of_nat n) s'.
Proof.
  induction n as [|n IH]; intros i s Hi Hstep.
  - exists s. split; [reflexivity|]. now rewrite Z.add_0_r.
  - destruct (Hstep i s ltac:(lia) Hi) as [s1 [Hb Hi1]].
    destruct (IH (i + 1) s1 Hi1) as [s' [Hl Hi']].
    + intros j s2 Hj. apply Hstep. lia.
    + exists s'. simpl. rewrite Hb. split; [exact Hl|].
      now replace (i + Z.of_nat (S n)) with (i + 1 + Z.of_nat n) by lia.
Qed.

(** Writing argument [j] into a vector that holds the first [j]
    arguments. *)
Lemma fill_step (args : list Value) (j : nat) (a : Value) :
  args !! j = Some a ->
  <[j := a]> (take j args ++ replicate (length args - j) VNil)%list
    = (take (S j) args ++ replicate (length args - S j) VNil)%list.
Proof.
  intros Ha. pose proof (lookup_lt_Some _ _ _ Ha) as Hlt.
  rewrite (take_S_r _ _ _ Ha).
  rewrite insert_app_r_alt by (rewrite length_take; lia).
  rewrite length_take, Nat.min_l by lia. rewrite Nat.sub_diag.
  replace (length args - j)%nat with (S (length args - S j)) by lia.
  simpl. now rewrite <- app_assoc.
Qed.


(** The loop over the leading parameters, when each of the first [k]
    arguments is accepted by its parameter: it fills the first [k] slots
    of the argument vector. *)
Lemma leading_loop name fv ins variadic outs (args : list Value) (k : nat) :
  (forall i, (i < k)%nat ->
     exists ti a, ins !! i = Some ti /\ args !! i = Some a /\ accepted ti a) ->
  for_loop k 0 (fun i vi =>
      ti ← In (TFunc ins variadic outs) i;
      a ← index args i;
      ok ← funcAccepts ti (TypeOf a);
      if negb ok then
        Ret (inr (VNil, Some (ETwikTypeError name fv a [typeName ti])))
      else Ret (inl (<[Z.to_nat i := a]> vi)))
    (replicate (length args) VNil)
  = Ret (inl (take k args ++ replicate (length args - k) VNil)%list).
Proof.
  intros Hacc.
  set (body := fun (i : Z) (vi : list Value) => _).
  destruct (for_loop_inv (R := Value * option Error)
              (fun j vi => 0 <= j /\
                 vi = (take (Z.to_nat j) args
                       ++ replicate (length args - Z.to_nat j) VNil)%list)
              body k 0 (replicate (length args) VNil)) as [vi [Hl [_ Hvi]]].
  - split; [lia|]. simpl. now rewrite Nat.sub_0_r.
  - intros j vi Hj [Hj0 ->].
    destruct (Hacc (Z.to_nat j) ltac:(lia)) as [ti [a [Hti [Ha Hok]]]].
    exists (take (Z.to_nat (j + 1)) args
            ++ replicate (length args - Z.to_nat (j + 1)) VNil)%list.
    split; [|split; [lia | reflexivity]].
    unfold body, In, index. cbn [signature].
    assert (Hneg : (j <? 0) = false) by (apply Z.ltb_ge; lia).
    rewrite Hneg, Hti. simpl. rewrite Ha. simpl.
    unfold accepted in Hok. rewrite Hok. simpl.
    rewrite (fill_step _ _ _ Ha).
    now replace (Z.to_nat (j + 1)) with (S (Z.to_nat j)) by lia.
  - rewrite Hl, Hvi. now rewrite Z.add_0_l, Nat2Z.id.
Qed.

(** Pointwise acceptance, by index. *)
Lemma accepted_lookup ins args :
  Forall2 accepted ins args ->
  forall i, (i < length args)%nat ->
    exists ti a, ins !! i = Some ti /\ args !! i = Some a /\ accepted ti a.
Proof.
  intros Hall i Hi.
  destruct (lookup_lt_is_Some_2 args i Hi) as [a Ha].
  destruct (Forall2_lookup_r _ _ _ _ _ Hall Ha) as [ti [Hti Hok]].
  eauto.
Qed.

(** Running [m + n] iterations is running [m] and then, unless these
    returned or panicked, [n] more. *)
Lemma for_loop_app {St R} (body : Z -> St -> Outcome (St + R)) :
  forall (m n : nat) (i : Z) (s : St),
    for_loop (m + n) i body s =
    match for_loop m i body s with
    | Ret (inl s') => for_loop n (i + Z.of_nat m) body s'
    | Ret (inr r) => Ret (inr r)
    | Panic msg => Panic msg
    end.
Proof.
  induction m as [|m IH]; intros n i s.
  - simpl. now rewrite Z.add_0_r.
  - simpl. destruct (body i s) as [[s1|r]|msg]; try reflexivity.
    rewrite IH. now replace (i + 1 + Z.of_nat m) with (i + Z.of_nat (S m)) by lia.
Qed.

(** The declared parameter at the variadic position. *)
Lemma In_last lead el outs :
  In (TFunc (lead ++ [TSlice el]) true outs)
     (Z.of_nat (length (lead ++ [TSlice el])) - 1)
    = Ret (TSlice el).
Proof.
  unfold In. cbn [signature].
  replace (Z.of_nat (length (lead ++ [TSlice el])) - 1)
    with (Z.of_nat (length lead)) by (rewrite length_app; simpl; lia).
  assert (Hneg : (Z.of_nat (length lead) <? 0) = false) by (apply Z.ltb_ge; lia).
  rewrite Hneg, Nat2Z.id, list_lookup_middle by reflexivity. reflexivity.
Qed.

(** One iteration on an accepted argument stores it. *)
Lemma trailing_body_accept name fv lead el outs args (j : nat) a vi :
  args !! j = Some a -> accepted el a ->
  trailing_body name fv lead el outs args (Z.of_nat j) vi
    = Ret (inl (<[j := a]> vi)).
Proof.
  intros Ha Hok. unfold trailing_body. rewrite In_last. simpl.
  unfold index.
  assert (Hneg : (Z.of_nat j <? 0) = false) by (apply Z.ltb_ge; lia).
  rewrite Hneg, Nat2Z.id, Ha. simpl.
  unfold accepted in Hok. rewrite Hok. reflexivity.
Qed.

(** One iteration on a rejected argument looks up the declared parameter
    at the argument's index. *)
Lemma trailing_body_reject name fv lead el outs args (j : nat) a vi :
  args !! j = Some a -> funcAccepts el (TypeOf a) = Ret false ->
  trailing_body name fv lead el outs args (Z.of_nat j) vi
    = match (lead ++ [TSlice el])%list !! j with
      | Some ti => Ret (inr (VNil, Some (ETwikTypeError name fv a [typeName ti])))
      | None => Panic "reflect: Func index out of bounds"
      end.
Proof.
  intros Ha Hok. unfold trailing_body. rewrite In_last. simpl.
  unfold index, In. cbn [signature].
  assert (Hneg : (Z.of_nat j <? 0) = false) by (apply Z.ltb_ge; lia).
  rewrite Hneg, Nat2Z.id, Ha. simpl. rewrite Hok. simpl.
  now destruct ((lead ++ [TSlice el])%list !! j).
Qed.

(** The loop over the trailing arguments, as long as each is accepted by
    the element type: it fills their slots of the argument vector. *)
Lemma trailing_loop name fv lead el outs (args : list Value) (m : nat) :
  (forall i, (length lead <= i < length lead + m)%nat ->
     exists a, args !! i = Some a /\ accepted el a) ->
  for_loop m (Z.of_nat (length lead)) (trailing_body name fv lead el outs args)
    (take (length lead) args ++ replicate (length args - length lead) VNil)%list
  = Ret (inl (take (length lead + m) args
              ++ replicate (length args - (length lead + m)) VNil)%list).
Proof.
  intros Hacc.
  destruct (for_loop_inv (R := Value * option Error)
              (fun j vi => 0 <= j /\
                 vi = (take (Z.to_nat j) args
                       ++ replicate (length args - Z.to_nat j) VNil)%list)
              (trailing_body name fv lead el outs args) m (Z.of_nat (length lead))
              (take (length lead) args
               ++ replicate (length args - length lead) VNil)%list)
    as [vi [Hl [_ Hvi]]].
  - split; [lia|]. now rewrite Nat2Z.id.
  - intros j vi Hj [Hj0 ->].
    destruct (Hacc (Z.to_nat j) ltac:(lia)) as [a [Ha Hok]].
    exists (take (Z.to_nat (j + 1)) args
            ++ replicate (length args - Z.to_nat (j + 1)) VNil)%list.
    split; [|split; [lia | reflexivity]].
    rewrite <- (Z2Nat.id j Hj0) at 1.
    rewrite (trailing_body_accept _ _ _ _ _ _ _ _ _ Ha Hok).
    rewrite (fill_step _ _ _ Ha).
    now replace (Z.to_nat (j + 1)) with (S (Z.to_nat j)) by lia.
  - rewrite Hl, Hvi.
    now replace (Z.to_nat (Z.of_nat (length lead) + Z.of_nat m))
      with (length lead + m)%nat by lia.
Qed.

(** *** Claims *)

(** C9.  [Format] is a function of its two arguments.  It renders a
    fixed two-parameter function taking a string and a slice of
    [interface{}] and returning only an error as
    [name :: string -> []{} => ()], and a function without parameters and
    results as [name :: ()]: with no parameter the loop writes nothing, so
    no separator appears. *)
Theorem Format_signatures (name : string) (id id' : N) :
  Format name (VOther (TFunc [TBasic String_; TSlice tAny] false [tError]) id)
    = Ret (name +:+ " :: string -> []{} => ()")
  /\ Format name (VOther (TFunc [] false []) id') = Ret (name +:+ " :: ()").
Proof. split; reflexivity. Qed.




(** The result handler of a function with two results looks at the first
    result only: the second one is never read, whatever it holds. *)
Lemma funcReturn_two_ignores_second name f ins variadic o0 o1 ret v0 v1 :
  TypeOf f = Some (TFunc ins variadic [o0; o1]) ->
  funcReturn name f = Ret ret ->
  as_error v0 = None ->
  ret [v0; v1] = Ret (v0, None).
Proof.
  intros Ht Hret Hv0. unfold funcReturn in Hret.
  rewrite (typeof_Some _ _ Ht) in Hret. simpl in Hret.
  destruct (negb (bool_decide (type_name o1 = "error"))); [discriminate|].
  injection Hret as <-. simpl. now rewrite Hv0.
Qed.

(** C1.  The claim asks that a non-nil error in the second result be
    surfaced.  The wrapper of a function returning (int, error) whose call
    yields [(0, "invalid port")] returns [(0, nil)]: the error is lost,
    because the handler tests the first result for being an error where
    the second is meant. *)
Theorem second_result_error_dropped :
  exists invoke,
    Func "port" parsePort = Ret invoke /\
    hf_call parsePort [VString "x"] = [VInt 0; VError (ENew "invalid port")] /\
    invoke [VString "x"] =
      {| calls := [[VString "x"]]; result := Ret (VInt 0, None) |}.
Proof.
  destruct (Func "port" parsePort) as [invoke|] eqn:Hf; [|discriminate].
  exists invoke. split; [reflexivity|]. split; [reflexivity|].
  vm_compute in Hf. injection Hf as <-. reflexivity.
Qed.


(** What a wrapped variadic function does on the first trailing argument
    that the element type rejects, after accepted leading arguments and
    accepted trailing arguments [good]: when [good] is empty the error
    names the slice type of the variadic parameter; otherwise the invoke
    panics.  The host function is not called. *)
Lemma variadic_mismatch name f lead el outs invoke largs good bad rest :
  TypeOf (hf_value f) = Some (TFunc (lead ++ [TSlice el]) true outs) ->
  Func name f = Ret invoke ->
  Forall2 accepted lead largs ->
  Forall (accepted el) good ->
  funcAccepts el (TypeOf bad) = Ret false ->
  invoke (largs ++ good ++ bad :: rest)%list =
    {| calls := [];
       result :=
         match good with
         | [] => Ret (VNil, Some (ETwikTypeError name (hf_value f) bad
                                    [typeName (TSlice el)]))
         | _ :: _ => Panic "reflect: Func index out of bounds"
         end |}.
Proof.
  intros Ht Hf Hlead Hgood Hbad.
  rewrite (Func_variadic _ _ _ _ Ht) in Hf. unfold funcVariadic in Hf.
  destruct (funcReturn name (hf_value f)) as [ret|]; [|discriminate].
  rewrite (typeof_Some _ _ Ht) in Hf. unfold NumIn in Hf.
  change (Ret ?x ≫= ?k) with (k x) in Hf. cbv beta zeta in Hf.
  injection Hf as <-.
  pose proof (Forall2_length _ _ _ Hlead) as Hlen.
  set (args := (largs ++ good ++ bad :: rest)%list).
  assert (Hn : length args = (length lead + (length good + S (length rest)))%nat).
  { unfold args. rewrite !length_app. simpl. lia. }
  assert (Hlast : Z.of_nat (length (lead ++ [TSlice el])) - 1 = Z.of_nat (length lead))
    by (rewrite length_app; simpl; lia).
  assert (Hlt : (Z.of_nat (length args) <? Z.of_nat (length (lead ++ [TSlice el])) - 1)
                = false) by (apply Z.ltb_ge; lia).
  rewrite Hlt.
  (* the leading loop *)
  assert (Hloop1 :
    for_loop (Z.to_nat (Z.of_nat (length (lead ++ [TSlice el])) - 1)) 0
      (fun i vi =>
         ti ← In (TFunc (lead ++ [TSlice el]) true outs) i;
         a ← index args i;
         ok ← funcAccepts ti (TypeOf a);
         if negb ok then
           Ret (inr (VNil, Some (ETwikTypeError name (hf_value f) a [typeName ti])))
         else Ret (inl (<[Z.to_nat i := a]> vi)))
      (replicate (Z.to_nat (Z.of_nat (length args))) VNil)
    = Ret (inl (take (length lead) args
                ++ replicate (length args - length lead) VNil)%list)).
  { rewrite Hlast, !Nat2Z.id. apply leading_loop.
    intros i Hi.
    destruct (accepted_lookup _ _ Hlead i ltac:(lia)) as [ti [a [Hti [Ha Hok]]]].
    exists ti, a. split; [now rewrite (lookup_app_l_Some _ _ _ _ Hti)|].
    split; [|exact Hok]. unfold args. now rewrite (lookup_app_l_Some _ _ _ _ Ha). }
  match goal with |- finish _ _ (?loop ≫= _) = _ =>
    replace loop with
      (Ret (A := list Value + Value * option Error)
         (inl (take (length lead) args
               ++ replicate (length args - length lead) VNil)%list))
      by (symmetry; exact Hloop1)
  end.
  clear Hloop1.
  change (Ret ?x ≫= ?k) with (k x). cbv beta iota.
  (* the trailing loop *)
  match goal with |- finish _ _ (for_loop ?n ?i ?b ?vi) = _ =>
    change b with (trailing_body name (hf_value f) lead el outs args)
  end.
  rewrite Hlast.
  replace (Z.to_nat (Z.of_nat (length args) - Z.of_nat (length lead)))
    with (length good + S (length rest))%nat by lia.
  rewrite for_loop_app, trailing_loop.
  - assert (Hb : args !! (length lead + length good)%nat = Some bad).
    { unfold args. rewrite lookup_app_r by lia.
      replace (length lead + length good - length largs)%nat with (length good) by lia.
      now apply list_lookup_middle. }
    simpl for_loop. rewrite <- Nat2Z.inj_add.
    rewrite (trailing_body_reject _ _ _ _ _ _ _ _ _ Hb Hbad).
    destruct good as [|g good].
    + rewrite Nat.add_0_r, list_lookup_middle by reflexivity. reflexivity.
    + rewrite lookup_ge_None_2; [reflexivity|].
      rewrite length_app. simpl. lia.
  - intros i Hi.
    assert (Hg : (i - length lead < length good)%nat) by lia.
    destruct (lookup_lt_is_Some_2 _ _ Hg) as [a Ha].
    exists a. split.
    + unfold args. rewrite lookup_app_r by lia. rewrite <- Hlen.
      now rewrite (lookup_app_l_Some _ _ _ _ Ha).
    + rewrite Forall_lookup in Hgood. eapply Hgood, Ha.
Qed.

(** C3.  A wrapped variadic function with one leading string parameter
    and trailing ints: a badly typed second trailing argument makes the
    invoke panic, since the error is built from the declared parameter at
    the argument's index, which does not exist beyond the variadic
    position; a badly typed first trailing argument is reported with the
    slice type of the variadic parameter, not its element type.  With the
    leading argument alone the host function is called. *)
Theorem variadic_mismatch_panics :
  exists invoke,
    Func "logf" logf = Ret invoke /\
    invoke [VString "a"; VInt 1; VString "x"] =
      {| calls := []; result := Panic "reflect: Func index out of bounds" |} /\
    invoke [VString "a"; VString "x"] =
      {| calls := [];
         result := Ret (VNil, Some (ETwikTypeError "logf" (hf_value logf)
                                      (VString "x") ["[]int"])) |} /\
    invoke [VString "a"] =
      {| calls := [[VString "a"]]; result := Ret (VNil, None) |}.
Proof.
  destruct (Func "logf" logf) as [invoke|] eqn:Hf; [|discriminate].
  exists invoke. split; [reflexivity|].
  vm_compute in Hf. injection Hf as <-.
  repeat split; reflexivity.
Qed.

End AdapterProps.

(* ===================================================================== *)
(** ** Properties of keys and the executer                                 *)
(* ===================================================================== *)

Module KeyProps.
Import twikutil key KeySpec.

Lemma is_nil_spec v : if is_nil v then v = VNil else v <> VNil.
Proof. destruct v; simpl; congruence. Qed.

(** [Has] holds exactly for a name that is not a function's and is bound
    to a value other than nil. *)
Lemma Has_true e n :
  Executer_Has e n = true <->
  is_func e n = false /\ exists v, scope e !! n = Some v /\ v <> VNil.
Proof.
  unfold Executer_Has, twik.Get.
  destruct (is_func e n); [split; [discriminate | intros [? _]; discriminate]|].
  destruct (scope e !! n) as [v|]; simpl.
  - split.
    + intros Hv. split; [reflexivity|]. exists v. split; [reflexivity|].
      intros ->. discriminate.
    + intros [_ [v' [[= <-] Hv']]]. destruct v; simpl; [congruence | reflexivity ..].
  - split; [discriminate | intros [_ [v [? _]]]; discriminate].
Qed.

(** Unbound names, names bound to nil and names of functions are all
    reported absent. *)
Lemma Has_unbound e n : scope e !! n = None -> Executer_Has e n = false.
Proof.
  intros Hn. unfold Executer_Has, twik.Get. rewrite Hn.
  now destruct (is_func e n).
Qed.

Lemma Has_nil e n : scope e !! n = Some VNil -> Executer_Has e n = false.
Proof.
  intros Hn. unfold Executer_Has, twik.Get. rewrite Hn.
  now destruct (is_func e n).
Qed.

Lemma Has_func e n : is_func e n = true -> Executer_Has e n = false.
Proof. intros Hn. unfold Executer_Has. now rewrite Hn. Qed.

(** [Set] binds or rebinds any name that is not a function's, and
    refuses the name of a function. *)
Lemma Set_not_func e n x :
  is_func e n = false ->
  Executer_Set e n x = ({| scope := <[n := x]> (scope e); funcs := funcs e |}, None).
Proof.
  intros Hn. unfold Executer_Set, twik.Get, twik.Set_, twik.Create. rewrite Hn.
  destruct (scope e !! n) as [v|]; reflexivity.
Qed.

Lemma Set_func e n x :
  is_func e n = true ->
  Executer_Set e n x = (e, Some (ENew "function with that name already exists")).
Proof. intros Hn. unfold Executer_Set. now rewrite Hn. Qed.

(** *** Acquire *)

(** [Acquire] of a readable key whose name is reported absent. *)
Lemma Acquire_unset k e :
  Executer_Has e (name k) = false ->
  Z.land (mode k) Read <> 0 ->
  Key_Acquire k e =
    Ret (k, e, if Z.land (mode k) Required =? 0 then None
               else Some (EKeyRequired (name k))).
Proof.
  intros Hhas Hr. unfold Key_Acquire.
  apply Z.eqb_neq in Hr. rewrite Hr, Hhas. simpl.
  now destruct (Z.land (mode k) Required =? 0).
Qed.

(** C4.  A key without Read is left alone by [Acquire], and so is the
    executer.  When the executer reports the key's name absent
    ([Executer_Has] is false, as it is for an unbound name, see
    [Has_unbound]): a key with Read and Required gets the
    required-but-unset error, a key with Read and without Required gets no
    error, and in both cases key and executer are unchanged. *)
Theorem Acquire_absent (k : Key) (e : Executer) :
  (Z.land (mode k) Read = 0 -> Key_Acquire k e = Ret (k, e, None)) /\
  (Executer_Has e (name k) = false ->
   Z.land (mode k) Read <> 0 ->
   (Z.land (mode k) Required <> 0 ->
      Key_Acquire k e = Ret (k, e, Some (EKeyRequired (name k)))) /\
   (Z.land (mode k) Required = 0 ->
      Key_Acquire k e = Ret (k, e, None))).
Proof.
  split.
  - intros Hr. unfold Key_Acquire. apply Z.eqb_eq in Hr. now rewrite Hr.
  - intros Hhas Hr. rewrite (Acquire_unset _ _ Hhas Hr). split.
    + intros Hq. apply Z.eqb_neq in Hq. now rewrite Hq.
    + intros Hq. apply Z.eqb_eq in Hq. now rewrite Hq.
Qed.

Lemma Acquire_absent_witness :
  Key_Acquire (retries (Z.lor Read Required)) emptyEnv
    = Ret (retries (Z.lor Read Required), emptyEnv, Some (EKeyRequired "retries")) /\
  Key_Acquire (retries Read) emptyEnv = Ret (retries Read, emptyEnv, None) /\
  Key_Acquire (retries Write) emptyEnv = Ret (retries Write, emptyEnv, None).
Proof.
  split; [|split].
  - apply (proj2 (Acquire_absent (retries (Z.lor Read Required)) emptyEnv));
      [reflexivity | vm_compute; discriminate | vm_compute; discriminate].
  - apply (proj2 (Acquire_absent (retries Read) emptyEnv));
      [reflexivity | vm_compute; discriminate | reflexivity].
  - apply (proj1 (Acquire_absent (retries Write) emptyEnv)). reflexivity.
Defined.

(** *** Apply and Clobber *)

(** C5, as stated, fails: a name bound to nil is bound, yet [Apply] of a
    writable key replaces the nil by the key's value; and a name bound to
    a function is bound, yet [Clobber] of a writable key is refused and
    leaves the binding. *)
Lemma Apply_overwrites_nil_binding :
  Z.land (mode (retries Write)) Write <> 0 /\
  (scope nilEnv !! name (retries Write) = Some VNil /\
   scope (Key_Apply (retries Write) nilEnv).1.2 !! name (retries Write)
     = Some (VInt 3)) /\
  (is_Some (scope funcEnv !! name (retries Write)) /\
   Key_Clobber (retries Write) funcEnv
     = (retries Write, funcEnv,
        Some (ENew "function with that name already exists"))) /\
  ~ Apply_keeps_bindings.
Proof.
  assert (H1 : Z.land (mode (retries Write)) Write <> 0) by (vm_compute; discriminate).
  assert (H2 : scope nilEnv !! name (retries Write) = Some VNil) by reflexivity.
  assert (H3 : scope (Key_Apply (retries Write) nilEnv).1.2 !! name (retries Write)
               = Some (VInt 3)) by reflexivity.
  split; [exact H1|]. split; [now split|]. split.
  - split; [eexists; reflexivity | reflexivity].
  - intros Hall.
    specialize (Hall (retries Write) nilEnv H1 (ex_intro _ _ H2)).
    rewrite Hall in H3. rewrite H2 in H3. discriminate.
Qed.

(** C5, amended.  For a key with Write and an executer that reports the
    key's name present ([Executer_Has]: bound to a value other than nil
    and not the name of a function), [Apply] leaves the executer as it is
    and [Clobber] rebinds the name to the key's value.  For a key without
    Write both leave the executer as it is.  The key is never changed. *)
Theorem Apply_Clobber_present (k : Key) (e : Executer) :
  (Z.land (mode k) Write <> 0 -> Executer_Has e (name k) = true ->
     Key_Apply k e = (k, e, None) /\
     Key_Clobber k e =
       (k, {| scope := <[name k := val k]> (scope e); funcs := funcs e |}, None)) /\
  (Z.land (mode k) Write = 0 ->
     Key_Apply k e = (k, e, None) /\ Key_Clobber k e = (k, e, None)).
Proof.
  unfold Key_Apply, Key_Clobber. split.
  - intros Hw Hhas. apply Z.eqb_neq in Hw. rewrite Hw, Hhas. simpl.
    split; [reflexivity|].
    apply Has_true in Hhas as [Hnf _]. now rewrite (Set_not_func _ _ _ Hnf).
  - intros Hw. apply Z.eqb_eq in Hw. now rewrite Hw.
Qed.

Lemma Apply_Clobber_present_witness :
  Key_Apply (retries Write) fiveEnv = (retries Write, fiveEnv, None) /\
  scope (Key_Clobber (retries Write) fiveEnv).1.2 !! "retries" = Some (VInt 3) /\
  Key_Clobber (retries Read) fiveEnv = (retries Read, fiveEnv, None).
Proof.
  destruct (Apply_Clobber_present (retries Write) fiveEnv) as [Hw _].
  destruct Hw as [Ha Hc]; [vm_compute; discriminate | reflexivity |].
  destruct (Apply_Clobber_present (retries Read) fiveEnv) as [_ Hr].
  destruct Hr as [_ Hc']; [reflexivity|].
  split; [exact Ha|]. split; [rewrite Hc; reflexivity | exact Hc'].
Defined.

(** *** Set *)

(** C6.  [Set] of nil returns no error and clears the stored value,
    whatever the key held.  [Set] of a value other than nil that [Check]
    rejects returns the error of [Check] and leaves the key as it was. *)
Theorem Set_nil_or_rejected (k : Key) :
  (Key_Set k VNil = Ret (with_val k VNil, None) /\
   Key_Get (with_val k VNil) = VNil) /\
  (forall v v' err,
     v <> VNil ->
     Check (name k) (typer_ k) v = Ret (v', Some err) ->
     Key_Set k v = Ret (k, Some err)).
Proof.
  split; [split; reflexivity|].
  intros v v' err Hv Hc. unfold Key_Set.
  destruct v; try congruence; simpl; rewrite Hc; reflexivity.
Qed.

Lemma Set_nil_or_rejected_witness :
  Key_Set (retries ReadWrite) (VString "many")
    = Ret (retries ReadWrite, Some (EKeyType true "retries" None "integer")).
Proof.
  apply (proj2 (Set_nil_or_rejected (retries ReadWrite)) (VString "many") VNil);
    [discriminate | reflexivity].
Defined.


(** *** Check and the coercion rules *)

(** What [Check] makes of the catch signal of a [TyperFunc] rule: a type
    error with the rule's name as the wanted type, and as the type got
    the type of what the rule's function returned. *)
Lemma Check_TyperFunc_catch name id f v v' :
  f v = (v', Some (ESentinel ErrCatch)) ->
  Check name (DTyper (TyperFunc id f)) v
    = Ret (v', Some (EKeyType true name (TypeOf v') id)).
Proof.
  intros Hf. unfold Check, TyperFunc, Coerce, typer_Coerce. simpl.
  rewrite Hf. simpl.
  destruct (TypeOf v') as [t|] eqn:Ht; simpl.
  - destruct (decide ("" = "")); congruence.
  - destruct (decide ("" = "")); congruence.
Qed.

(** C2.  The claim asks for the type of the rejected value in the error.
    A string given to the Integer rule is rejected with a type error that
    wants "integer" and does not expose ErrCatch, but the type it records
    as got is the nil type: the rule's function returns nil with the catch
    signal, the result overwrites the parameter, and the type is taken
    from that. *)
Theorem Integer_mismatch_loses_type :
  TypeOf (VString "eighty") = Some (TBasic String_) /\
  Check "port" (DTyper Integer) (VString "eighty")
    = Ret (VNil, Some (EKeyType true "port" None "integer")) /\
  TypeError_Error "port" None "integer"
    = "port: value (type <nil>) is not of type integer".
Proof. repeat split; reflexivity. Qed.

(** The built-in rules accept their own results. *)
Lemma Integer_idempotent : idempotent (DTyper Integer).
Proof.
  intros v v' Hc _.
  destruct v; simpl in Hc; try discriminate; injection Hc as <-; reflexivity.
Qed.

Lemma Float_idempotent : idempotent (DTyper Float).
Proof.
  intros v v' Hc _.
  destruct v; simpl in Hc; try discriminate; injection Hc as <-; reflexivity.
Qed.

Lemma implements_refl t : implements t t = true.
Proof.
  unfold implements. apply forallb_forall. intros m Hm.
  apply bool_decide_eq_true. now apply list_elem_of_In.
Qed.

(** A value that [Check] accepted is nil or accepted again, unchanged. *)
Lemma Check_again n d v v' :
  idempotent d ->
  Check n d v = Ret (v', None) ->
  v' = VNil \/ Check n d v' = Ret (v', None).
Proof.
  intros Hd Hc. destruct d as [t|T|o]; simpl in *.
  - destruct (chkType n v t) as [[e|]|] eqn:Hk; simpl in Hc; try discriminate.
    injection Hc as <-. right. now rewrite Hk.
  - destruct (Coerce T v) as [[w err]|] eqn:Hk; simpl in Hc; try discriminate.
    assert (err = None /\ w = v') as [-> ->].
    { destruct err as [[ | | | | [] | [] | ]|]; simpl in Hc;
        try discriminate; split; congruence. }
    pose proof (is_nil_spec v') as Hn.
    destruct (is_nil v'); [now left|].
    right. now rewrite (Hd _ _ Hk Hn).
  - discriminate.
Qed.

(** [Set] keeps the invariant and the descriptor. *)
Lemma Set_conforms k v k' err :
  idempotent (typer_ k) -> conforms k ->
  Key_Set k v = Ret (k', err) ->
  conforms k' /\ typer_ k' = typer_ k.
Proof.
  intros Hd Hk Hs. unfold Key_Set in Hs.
  destruct (negb (is_nil v)) eqn:Hv.
  - destruct (Check (name k) (typer_ k) v) as [[w e]|] eqn:Hc;
      simpl in Hs; try discriminate.
    destruct e as [e|]; injection Hs as <- <-; [now split|].
    split; [|reflexivity].
    destruct (Check_again _ _ _ _ Hd Hc) as [->|Hw]; [now left | now right].
  - injection Hs as <- <-. destruct v; try discriminate. split; [now left | reflexivity].
Qed.

(** The default of [NewAuto] has the type inferred from it. *)
Lemma NewAuto_conforms n d m ds k err :
  NewAuto n d m ds = (Some k, err) -> conforms k.
Proof.
  unfold NewAuto. destruct (is_nil d); intros [= <- <-].
  destruct (TypeOf d) as [t|] eqn:Ht.
  - right. unfold Key_Get. simpl. unfold chkType, typeof. rewrite Ht.
    destruct (bool_decide (type_kind t = Interface)); simpl.
    + now rewrite implements_refl.
    + rewrite bool_decide_eq_true_2 by reflexivity. reflexivity.
  - left. destruct d; simpl in Ht; try discriminate. reflexivity.
Qed.

(** C7, as stated, fails: a coercion rule need not accept its own
    results.  The key built by [New] from the rule that turns a string
    into its length holds an int, which the rule rejects. *)
Lemma length_key_does_not_conform :
  New "width" (DTyper Length) (VString "eighty") Reserved "" = Ret (Some width, None) /\
  reachable width /\
  Key_Get width = VInt 6 /\
  Check (name width) (typer_ width) (Key_Get width)
    = Ret (VNil, Some (EKeyType true "width" None "length")) /\
  ~ reachable_keys_conform.
Proof.
  assert (Hn : New "width" (DTyper Length) (VString "eighty") Reserved ""
               = Ret (Some width, None)) by reflexivity.
  assert (Hr : reachable width) by exact (reach_New _ _ _ _ _ _ _ Hn).
  repeat split; try assumption; try reflexivity.
  intros Hall. destruct (Hall _ Hr) as [H|H]; discriminate.
Qed.

Lemma Set_typer k v k' err :
  Key_Set k v = Ret (k', err) -> typer_ k' = typer_ k.
Proof.
  unfold Key_Set. destruct (negb (is_nil v)).
  - destruct (Check (name k) (typer_ k) v) as [[w [e|]]|]; simpl;
      intros [= <- <-]; reflexivity.
  - intros [= <- <-]. reflexivity.
Qed.

(** [Acquire] changes the key through [Set] or not at all. *)
Lemma Acquire_by_Set k e k' e' err :
  Key_Acquire k e = Ret (k', e', err) ->
  k' = k \/ exists v err', Key_Set k v = Ret (k', err').
Proof.
  unfold Key_Acquire.
  destruct (Z.land (mode k) Read =? 0); [intros [= <- <- <-]; now left|].
  destruct (negb (Executer_Has e (name k))).
  - destruct (negb (Z.land (mode k) Required =? 0)); intros [= <- <- <-]; now left.
  - destruct (Executer_Get e (name k)) as [v gerr].
    destruct (Key_Set k v) as [[k1 e1]|] eqn:Hs; simpl; [|discriminate].
    intros [= <- <- <-]. right. eauto.
Qed.

(** [Apply], [ApplyOrNil] and [Clobber] do not change the key. *)
Lemma Apply_key k e : (Key_Apply k e).1.1 = k.
Proof.
  unfold Key_Apply. destruct (Z.land (mode k) Write =? 0); [reflexivity|].
  destruct (negb (Executer_Has e (name k))); [|reflexivity].
  now destruct (Executer_Set e (name k) (val k)).
Qed.

Lemma ApplyOrNil_key k e : (Key_ApplyOrNil k e).1.1 = k.
Proof.
  unfold Key_ApplyOrNil. destruct (Z.land (mode k) Write =? 0).
  - now destruct (Executer_Set e (name k) VNil).
  - destruct (negb (Executer_Has e (name k))); [|reflexivity].
    now destruct (Executer_Set e (name k) (val k)).
Qed.

Lemma Clobber_key k e : (Key_Clobber k e).1.1 = k.
Proof.
  unfold Key_Clobber. destruct (Z.land (mode k) Write =? 0); [reflexivity|].
  now destruct (Executer_Set e (name k) (val k)).
Qed.

(** C7, amended.  Every key reachable through [New], [NewAuto] and the
    key operations whose descriptor is a [reflect.Type], or a coercion
    rule that accepts each of its own non-nil results unchanged (as Float
    and Integer do, see [Float_idempotent] and [Integer_idempotent]),
    holds nil or a value that [Check] accepts again and returns
    unchanged. *)
Theorem reachable_conforms (k : Key) :
  reachable k -> idempotent (typer_ k) -> conforms k.
Proof.
  induction 1 as [n t d m ds k err Hn | n d m ds k err Hn
                 | k v k' err Hr IH Hs | k e k' e' err Hr IH Ha
                 | k e Hr IH | k e Hr IH | k e Hr IH | k m Hr IH]; intros Hd.
  - unfold New in Hn. destruct (negb (IsTyper t)); [discriminate|].
    destruct (Key_Set _ d) as [[k0 e0]|] eqn:Hs; simpl in Hn; [|discriminate].
    injection Hn as <- <-.
    rewrite (Set_typer _ _ _ _ Hs) in Hd.
    apply (Set_conforms _ _ _ _ Hd) in Hs; [tauto | now left].
  - eapply NewAuto_conforms; eassumption.
  - rewrite (Set_typer _ _ _ _ Hs) in Hd.
    apply (Set_conforms _ _ _ _ Hd (IH Hd)) in Hs. tauto.
  - destruct (Acquire_by_Set _ _ _ _ _ Ha) as [->|[v [err' Hs]]]; [auto|].
    rewrite (Set_typer _ _ _ _ Hs) in Hd.
    apply (Set_conforms _ _ _ _ Hd (IH Hd)) in Hs. tauto.
  - rewrite Apply_key in *. auto.
  - rewrite ApplyOrNil_key in *. auto.
  - rewrite Clobber_key in *. auto.
  - exact (IH Hd).
Qed.

Lemma reachable_conforms_witness :
  conforms {| name := "retries"; desc := ""; mode := ReadWrite;
              typer_ := DTyper Integer; val := VInt 5 |}.
Proof.
  apply reachable_conforms; [|exact Integer_idempotent].
  apply (reach_New "retries" (DTyper Integer) (VInt32 5) ReadWrite "" _ None).
  reflexivity.
Defined.

(** *** Has *)

(** C10, counterexample.  On the name of a function [ApplyOrNil] of a key
    without Write binds nothing: [Set] refuses the name, the call returns
    its error and the scope keeps the function.  And where the name of a
    function is bound to nil, which [New] can leave behind, [Apply] of a
    key with Write does not write over the nil. *)
Theorem ApplyOrNil_Apply_refused_on_function_name :
  Z.land (mode (retries Read)) Write = 0 /\
  Key_ApplyOrNil (retries Read) funcEnv
    = (retries Read, funcEnv,
       Some (ENew "function with that name already exists")) /\
  scope funcEnv !! "retries" <> Some VNil /\
  twikutil.New {[ "retries" := VNil ]}
      {[ "retries" := {| hf_value := VNil; hf_call := fun _ => [] |} ]}
    = Ret nilFuncEnv /\
  scope nilFuncEnv !! "retries" = Some VNil /\
  Z.land (mode (retries Write)) Write <> 0 /\
  Key_Apply (retries Write) nilFuncEnv
    = (retries Write, nilFuncEnv,
       Some (ENew "function with that name already exists")).
Proof.
  split; [reflexivity|]. split; [reflexivity|]. split; [discriminate|].
  split; [|split; [reflexivity|split; [discriminate|reflexivity]]].
  unfold twikutil.New. rewrite map_to_list_singleton. reflexivity.
Qed.

(** C10.  [Has] is true exactly when the name is not a function's, the
    scope binds it, and the bound value is not nil.  So a name bound to
    nil counts as absent: [ApplyOrNil] of a key without Write leaves the
    name absent, bound to nil unless it is a function's name; and when a
    name is bound to nil, [Apply] of a key with Write binds it to the
    key's value unless it is a function's name, and [Acquire] of a key
    with Read and Required fails with the required-but-unset error, as
    for an unbound name. *)
Theorem Has_counts_nil_as_absent (e : Executer) (k : Key) :
  (forall n, Executer_Has e n = true <->
             is_func e n = false /\ exists v, scope e !! n = Some v /\ v <> VNil) /\
  (Z.land (mode k) Write = 0 ->
     Executer_Has (Key_ApplyOrNil k e).1.2 (name k) = false /\
     (is_func e (name k) = false ->
        scope (Key_ApplyOrNil k e).1.2 !! name k = Some VNil)) /\
  (scope e !! name k = Some VNil ->
     Executer_Has e (name k) = false /\
     (Z.land (mode k) Write <> 0 -> is_func e (name k) = false ->
        Key_Apply k e =
          (k, {| scope := <[name k := val k]> (scope e); funcs := funcs e |}, None)) /\
     (Z.land (mode k) Read <> 0 -> Z.land (mode k) Required <> 0 ->
        Key_Acquire k e = Ret (k, e, Some (EKeyRequired (name k))))).
Proof.
  split; [intros n; apply Has_true|]. split.
  - intros Hw. apply Z.eqb_eq in Hw. unfold Key_ApplyOrNil. rewrite Hw.
    destruct (is_func e (name k)) eqn:Hf.
    + rewrite (Set_func _ _ _ Hf). simpl. split; [now apply Has_func | discriminate].
    + rewrite (Set_not_func _ _ _ Hf). simpl.
      assert (Hb : <[name k := VNil]> (scope e) !! name k = Some VNil)
        by apply lookup_insert_eq.
      split; [now apply Has_nil | intros _; exact Hb].
  - intros Hnil. pose proof (Has_nil _ _ Hnil) as Hhas. split; [exact Hhas|]. split.
    + intros Hw Hf. apply Z.eqb_neq in Hw. unfold Key_Apply.
      rewrite Hw, Hhas. simpl. now rewrite (Set_not_func _ _ _ Hf).
    + intros Hr Hq. rewrite (Acquire_unset _ _ Hhas Hr).
      apply Z.eqb_neq in Hq. now rewrite Hq.
Qed.

Lemma Has_counts_nil_as_absent_witness :
  Executer_Has (Key_ApplyOrNil (retries Read) fiveEnv).1.2 "retries" = false /\
  scope (Key_Apply (retries Write) nilEnv).1.2 !! "retries" = Some (VInt 3) /\
  Key_Acquire (retries (Z.lor Read Required)) nilEnv
    = Ret (retries (Z.lor Read Required), nilEnv, Some (EKeyRequired "retries")).
Proof.
  split; [|split].
  - apply (proj1 (proj2 (Has_counts_nil_as_absent fiveEnv (retries Read)))).
    reflexivity.
  - destruct (Has_counts_nil_as_absent nilEnv (retries Write)) as [_ [_ H]].
    destruct (H eq_refl) as [_ [Ha _]].
    rewrite Ha; [reflexivity | vm_compute; discriminate | reflexivity].
  - destruct (Has_counts_nil_as_absent nilEnv (retries (Z.lor Read Required)))
      as [_ [_ H]].
    destruct (H eq_refl) as [_ [_ Hq]].
    apply Hq; vm_compute; discriminate.
Defined.

End KeyProps.

(* ===================================================================== *)
(** ** Further properties of the executer and of keys                      *)
(* ===================================================================== *)

Module ExtraProps.
Import twikutil key KeySpec ExtraSpec.

(** *** The executer *)

Lemma is_func_insert_true e key n s :
  is_func {| scope := s; funcs := <[key := true]> (funcs e) |} n
    = if decide (key = n) then true else is_func e n.
Proof.
  unfold is_func. simpl. rewrite lookup_insert. now destruct (decide (key = n)).
Qed.

Lemma Executer_Set_ok e n v :
  is_func e n = false ->
  Executer_Set e n v = ({| scope := <[n := v]> (scope e); funcs := funcs e |}, None).
Proof.
  intros Hn. unfold Executer_Set, twik.Get, twik.Set_, twik.Create. rewrite Hn.
  destruct (scope e !! n); reflexivity.
Qed.

Lemma Executer_Has_lookup e n :
  Executer_Has e n =
    if is_func e n then false
    else match scope e !! n with Some v => negb (is_nil v) | None => false end.
Proof.
  unfold Executer_Has, twik.Get. destruct (is_func e n); [reflexivity|].
  now destruct (scope e !! n).
Qed.

(** X1.  Setting a name that is not a function's always succeeds; the
    value is what [Get] then returns, [Has] reports the name present
    unless the value is nil, and every other name reads as before. *)
Theorem Set_then_Get (e : Executer) (n : string) (v : Value) :
  is_func e n = false ->
  exists e',
    Executer_Set e n v = (e', None) /\
    Executer_Get e' n = (v, None) /\
    Executer_Has e' n = negb (is_nil v) /\
    forall m, m <> n ->
      Executer_Get e' m = Executer_Get e m /\
      Executer_Has e' m = Executer_Has e m.
Proof.
  intros Hn. eexists. split; [apply (Executer_Set_ok _ _ _ Hn)|].
  split; [|split].
  - unfold Executer_Get, twik.Get, is_func in *. simpl. rewrite Hn.
    now rewrite lookup_insert_eq.
  - rewrite Executer_Has_lookup. unfold is_func in *. simpl. rewrite Hn.
    now rewrite lookup_insert_eq.
  - intros m Hm. split.
    + unfold Executer_Get, twik.Get, is_func. simpl.
      now rewrite lookup_insert_ne by congruence.
    + rewrite !Executer_Has_lookup. unfold is_func. simpl.
      now rewrite lookup_insert_ne by congruence.
Qed.

Lemma Set_then_Get_witness :
  exists e',
    Executer_Set emptyEnv "retries" (VInt 5) = (e', None) /\
    Executer_Get e' "retries" = (VInt 5, None).
Proof.
  destruct (Set_then_Get emptyEnv "retries" (VInt 5)) as [e' [Hs [Hg _]]];
    [reflexivity|].
  exists e'. now split.
Defined.

(** X2.  Once [Create] has registered a function under a name, the name
    is bound to the wrapper but is reported absent by [Has], cannot be
    read with [Get], and every [Set] on it, and so every [Clobber] of a
    writable key of that name, is refused and leaves the executer as it
    is. *)
Theorem Create_protects_name (e e' : Executer) (key : string) (fn : HostFunc) :
  Executer_Create e key fn = Ret (e', None) ->
  scope e' !! key = Some (wrapper_of fn) /\
  Executer_Has e' key = false /\
  Executer_Get e' key = (VNil, Some (ENew "functions cannot be gotten")) /\
  (forall v, Executer_Set e' key v
             = (e', Some (ENew "function with that name already exists"))) /\
  (forall k, name k = key -> Z.land (mode k) Write <> 0 ->
             Key_Clobber k e'
             = (k, e', Some (ENew "function with that name already exists"))).
Proof.
  unfold Executer_Create, twik.Create.
  destruct (Func key fn) as [w|]; simpl; [|discriminate].
  destruct (scope e !! key) eqn:Hk; intros [= <-].
  assert (Hf : forall s, is_func {| scope := s; funcs := <[key := true]> (funcs e) |} key
               = true).
  { intros s. rewrite is_func_insert_true. now destruct (decide (key = key)). }
  split; [apply lookup_insert_eq|]. split; [|split; [|split]].
  - unfold Executer_Has. now rewrite Hf.
  - unfold Executer_Get. now rewrite Hf.
  - intros v. unfold Executer_Set. now rewrite Hf.
  - intros k <- Hw. unfold Key_Clobber, Executer_Set.
    apply Z.eqb_neq in Hw. now rewrite Hw, Hf.
Qed.

Lemma Create_protects_name_witness :
  exists e',
    Executer_Create emptyEnv "read" AdapterSpec.readFile = Ret (e', None) /\
    Executer_Has e' "read" = false /\
    (Executer_Set e' "read" (VInt 1)).1 = e'.
Proof.
  destruct (Executer_Create emptyEnv "read" AdapterSpec.readFile)
    as [[e' [err|]]|] eqn:Hc; try discriminate.
  destruct (Create_protects_name _ _ _ _ Hc) as [_ [Hh [_ [Hs _]]]].
  exists e'. split; [reflexivity|]. split; [exact Hh|]. now rewrite Hs.
Defined.

(** X3.  [Create] never rebinds: on a name the scope already defines, also
    one bound to nil or to a function created before, it returns an error
    and leaves the executer as it is, so the name does not become a
    function's. *)
Theorem Create_on_defined_name (e : Executer) (key : string) (fn : HostFunc)
    (v : Value) (w : list Value -> Invocation) :
  scope e !! key = Some v ->
  Func key fn = Ret w ->
  exists err, Executer_Create e key fn = Ret (e, Some err).
Proof.
  intros Hk Hw. unfold Executer_Create, twik.Create. rewrite Hw. simpl.
  rewrite Hk. eauto.
Qed.

Lemma Create_on_defined_name_witness :
  exists err,
    Executer_Create nilEnv "retries" AdapterSpec.readFile = Ret (nilEnv, Some err).
Proof.
  destruct (Func "retries" AdapterSpec.readFile) as [w|] eqn:Hw; [|discriminate].
  exact (Create_on_defined_name nilEnv "retries" AdapterSpec.readFile VNil w
           eq_refl Hw).
Defined.

(** X4.  [Override] rebinds only names of functions: on any other name it
    returns an error and leaves the executer as it is; on the name of a
    function that the scope binds it replaces the binding by the new
    wrapper and the name stays a function's. *)
Theorem Override_only_functions (e : Executer) (key : string) (fn : HostFunc) :
  (is_func e key = false ->
     Executer_Override e key fn
       = Ret (e, Some (ENew "no function by that name exists"))) /\
  (forall w old, is_func e key = true -> Func key fn = Ret w ->
     scope e !! key = Some old ->
     exists e', Executer_Override e key fn = Ret (e', None) /\
       scope e' !! key = Some (wrapper_of fn) /\
       is_func e' key = true /\
       forall m, m <> key -> scope e' !! m = scope e !! m).
Proof.
  unfold Executer_Override, twik.Set_. split.
  - intros Hf. now rewrite Hf.
  - intros w old Hf Hw Hk. rewrite Hf, Hw. simpl. rewrite Hk.
    eexists. split; [reflexivity|]. simpl.
    split; [apply lookup_insert_eq|]. split; [exact Hf|].
    intros m Hm. now rewrite lookup_insert_ne by congruence.
Qed.

Lemma Override_only_functions_witness :
  Executer_Override nilEnv "retries" AdapterSpec.readFile
    = Ret (nilEnv, Some (ENew "no function by that name exists")) /\
  exists e', Executer_Override funcEnv "retries" AdapterSpec.readFile = Ret (e', None).
Proof.
  split.
  - apply (proj1 (Override_only_functions nilEnv "retries" AdapterSpec.readFile)).
    reflexivity.
  - destruct (Func "retries" AdapterSpec.readFile) as [w|] eqn:Hw; [|discriminate].
    destruct (proj2 (Override_only_functions funcEnv "retries" AdapterSpec.readFile)
                w _ eq_refl Hw eq_refl) as [e' [He _]].
    exists e'. exact He.
Defined.

(** *** Keys and the executer *)

Lemma is_nil_false v : v <> VNil -> is_nil v = false.
Proof. destruct v; simpl; congruence. Qed.

Lemma with_val_same k : with_val k (val k) = k.
Proof. now destruct k. Qed.

(** X5.  Round trip: for a key with Read and Write that holds a value
    other than nil which its descriptor accepts unchanged, and a name that
    is not a function's, [Clobber] binds the value and a following
    [Acquire] reads it back, leaving the key as it was. *)
Theorem Clobber_then_Acquire (k : Key) (e : Executer) :
  Z.land (mode k) Write <> 0 ->
  Z.land (mode k) Read <> 0 ->
  is_func e (name k) = false ->
  val k <> VNil ->
  Check (name k) (typer_ k) (val k) = Ret (val k, None) ->
  exists e',
    Key_Clobber k e = (k, e', None) /\
    Executer_Get e' (name k) = (val k, None) /\
    Key_Acquire k e' = Ret (k, e', None).
Proof.
  intros Hw Hr Hf Hv Hc.
  exists {| scope := <[name k := val k]> (scope e); funcs := funcs e |}.
  assert (Hget : Executer_Get
            {| scope := <[name k := val k]> (scope e); funcs := funcs e |} (name k)
            = (val k, None)).
  { unfold Executer_Get, twik.Get, is_func in *. simpl. rewrite Hf.
    now rewrite lookup_insert_eq. }
  split; [|split; [exact Hget|]].
  - unfold Key_Clobber. apply Z.eqb_neq in Hw. rewrite Hw.
    now rewrite (Executer_Set_ok _ _ _ Hf).
  - unfold Key_Acquire. apply Z.eqb_neq in Hr. rewrite Hr.
    rewrite Executer_Has_lookup. unfold is_func in *. simpl. rewrite Hf.
    rewrite lookup_insert_eq.
    assert (Hn : is_nil (val k) = false) by now apply is_nil_false.
    rewrite Hn. simpl.
    change (Executer_Get _ (name k)) with
      (Executer_Get {| scope := <[name k := val k]> (scope e); funcs := funcs e |}
         (name k)).
    rewrite Hget. unfold Key_Set. rewrite Hn. simpl. rewrite Hc. simpl.
    now rewrite with_val_same.
Qed.

Lemma Clobber_then_Acquire_witness :
  exists e',
    Key_Clobber (retries ReadWrite) fiveEnv = (retries ReadWrite, e', None) /\
    Key_Acquire (retries ReadWrite) e' = Ret (retries ReadWrite, e', None).
Proof.
  destruct (Clobber_then_Acquire (retries ReadWrite) fiveEnv) as [e' [Hc [_ Ha]]];
    [vm_compute; discriminate | vm_compute; discriminate | reflexivity
    | discriminate | reflexivity |].
  exists e'. now split.
Defined.

(** Setting a name twice to the same value is setting it once. *)
Lemma Set_twice e n v :
  Executer_Set (Executer_Set e n v).1 n v = Executer_Set e n v.
Proof.
  destruct (is_func e n) eqn:Hf.
  - unfold Executer_Set. rewrite Hf. simpl. now rewrite Hf.
  - rewrite (Executer_Set_ok _ _ _ Hf). simpl.
    rewrite Executer_Set_ok by exact Hf. simpl. now rewrite insert_insert_eq.
Qed.

(** X6.  [Apply], [ApplyOrNil] and [Clobber] are idempotent: done a second
    time on the executer the first left, each returns what it returned
    before and changes nothing. *)
Theorem sync_idempotent (k : Key) (e : Executer) :
  Key_Apply k (Key_Apply k e).1.2 = Key_Apply k e /\
  Key_ApplyOrNil k (Key_ApplyOrNil k e).1.2 = Key_ApplyOrNil k e /\
  Key_Clobber k (Key_Clobber k e).1.2 = Key_Clobber k e.
Proof.
  assert (Hwrite : forall e1 err,
    Executer_Has e (name k) = false ->
    Executer_Set e (name k) (val k) = (e1, err) ->
    (if negb (Executer_Has e1 (name k))
     then let '(e2, err2) := Executer_Set e1 (name k) (val k) in (k, e2, err2)
     else (k, e1, None)) = (k, e1, err)).
  { intros e1 err Hh Hs.
    pose proof (Set_twice e (name k) (val k)) as H2. rewrite Hs in H2. simpl in H2.
    destruct (Executer_Has e1 (name k)) eqn:Hh1; simpl; [|now rewrite H2].
    destruct (is_func e (name k)) eqn:Hf.
    - unfold Executer_Set in Hs. rewrite Hf in Hs. injection Hs as <- <-. congruence.
    - rewrite (Executer_Set_ok _ _ _ Hf) in Hs. now injection Hs as <- <-. }
  split; [|split].
  - unfold Key_Apply.
    destruct (Z.land (mode k) Write =? 0) eqn:Hw; simpl; [reflexivity|].
    destruct (Executer_Has e (name k)) eqn:Hh; simpl; [now rewrite Hh|].
    destruct (Executer_Set e (name k) (val k)) as [e1 err] eqn:Hs. simpl.
    now apply Hwrite.
  - unfold Key_ApplyOrNil.
    destruct (Z.land (mode k) Write =? 0) eqn:Hw; simpl.
    + pose proof (Set_twice e (name k) VNil) as H2.
      destruct (Executer_Set e (name k) VNil) as [e1 err]. simpl in *.
      now rewrite H2.
    + destruct (Executer_Has e (name k)) eqn:Hh; simpl; [now rewrite Hh|].
      destruct (Executer_Set e (name k) (val k)) as [e1 err] eqn:Hs. simpl.
      now apply Hwrite.
  - unfold Key_Clobber.
    destruct (Z.land (mode k) Write =? 0) eqn:Hw; simpl; [reflexivity|].
    pose proof (Set_twice e (name k) (val k)) as H2.
    destruct (Executer_Set e (name k) (val k)) as [e1 err]. simpl in *.
    now rewrite H2.
Qed.

Lemma Set_frame e n v m :
  m <> n ->
  scope (Executer_Set e n v).1 !! m = scope e !! m /\
  funcs (Executer_Set e n v).1 = funcs e.
Proof.
  intros Hm. destruct (is_func e n) eqn:Hf.
  - unfold Executer_Set. rewrite Hf. now split.
  - rewrite (Executer_Set_ok _ _ _ Hf). simpl.
    now rewrite lookup_insert_ne by congruence.
Qed.

Lemma sync_frame_any k e :
  (Key_Apply k e).1.1 = k /\ (Key_ApplyOrNil k e).1.1 = k /\
  (Key_Clobber k e).1.1 = k.
Proof.
  unfold Key_Apply, Key_ApplyOrNil, Key_Clobber.
  destruct (Z.land (mode k) Write =? 0); destruct (negb (Executer_Has e (name k)));
    repeat split; try reflexivity;
    match goal with |- context [Executer_Set ?a ?b ?c] =>
      now destruct (Executer_Set a b c) end.
Qed.

(** X7.  [Apply], [ApplyOrNil] and [Clobber] leave the key as it is, never
    change which names are functions, and leave the binding of every name
    other than the key's own as it is. *)
Theorem sync_frame (k : Key) (e : Executer) (m : string) :
  m <> name k ->
  ((Key_Apply k e).1.1 = k /\
   funcs (Key_Apply k e).1.2 = funcs e /\
   scope (Key_Apply k e).1.2 !! m = scope e !! m) /\
  ((Key_ApplyOrNil k e).1.1 = k /\
   funcs (Key_ApplyOrNil k e).1.2 = funcs e /\
   scope (Key_ApplyOrNil k e).1.2 !! m = scope e !! m) /\
  ((Key_Clobber k e).1.1 = k /\
   funcs (Key_Clobber k e).1.2 = funcs e /\
   scope (Key_Clobber k e).1.2 !! m = scope e !! m).
Proof.
  intros Hm.
  assert (Hset : forall v,
    (let '(e1, err) := Executer_Set e (name k) v in (k, e1, err)).1.1 = k /\
    funcs (let '(e1, err) := Executer_Set e (name k) v in (k, e1, err)).1.2 = funcs e /\
    scope (let '(e1, err) := Executer_Set e (name k) v in (k, e1, err)).1.2 !! m
      = scope e !! m).
  { intros v. destruct (Set_frame e (name k) v m Hm) as [H1 H2].
    destruct (Executer_Set e (name k) v) as [e1 err]. simpl in *. auto. }
  unfold Key_Apply, Key_ApplyOrNil, Key_Clobber.
  destruct (Z.land (mode k) Write =? 0); destruct (Executer_Has e (name k));
    simpl; auto.
Qed.

Lemma sync_frame_witness :
  scope (Key_Clobber (retries Write) fiveEnv).1.2 !! "timeout"
    = scope fiveEnv !! "timeout".
Proof.
  apply (sync_frame (retries Write) fiveEnv "timeout"). discriminate.
Defined.

(** What an [Acquire] that returns can have done. *)
Lemma Acquire_shape k k' e e' err :
  Key_Acquire k e = Ret (k', e', err) ->
  e' = e /\
  name k' = name k /\ desc k' = desc k /\ mode k' = mode k /\
  typer_ k' = typer_ k /\
  (err <> None -> k' = k).
Proof.
  unfold Key_Acquire.
  destruct (Z.land (mode k) Read =? 0); [intros [= <- <- <-]; now repeat split|].
  destruct (negb (Executer_Has e (name k))).
  - destruct (negb (Z.land (mode k) Required =? 0)); intros [= <- <- <-];
      now repeat split.
  - destruct (Executer_Get e (name k)) as [v gerr]. unfold Key_Set.
    destruct (negb (is_nil v)).
    + destruct (Check (name k) (typer_ k) v) as [[w [cerr|]]|]; simpl;
        [| |discriminate]; intros [= <- <- <-]; repeat split; congruence.
    + simpl. intros [= <- <- <-]. repeat split; congruence.
Qed.

(** X8.  [Acquire] never changes the executer, nor the key's name,
    description, mode or descriptor; and when it returns an error, the
    key keeps its stored value too. *)
Theorem Acquire_frame (k k' : Key) (e e' : Executer) (err : option Error) :
  Key_Acquire k e = Ret (k', e', err) ->
  e' = e /\
  name k' = name k /\ desc k' = desc k /\ mode k' = mode k /\
  typer_ k' = typer_ k /\
  (err <> None -> k' = k).
Proof. apply Acquire_shape. Qed.

Lemma Acquire_frame_witness :
  exists k' e' err,
    Key_Acquire (retries ReadWrite)
      {| scope := {[ "retries" := VString "many" ]}; funcs := ∅ |}
      = Ret (k', e', Some err) /\
    k' = retries ReadWrite.
Proof.
  assert (H : Key_Acquire (retries ReadWrite)
                {| scope := {[ "retries" := VString "many" ]}; funcs := ∅ |}
              = Ret (retries ReadWrite,
                     {| scope := {[ "retries" := VString "many" ]}; funcs := ∅ |},
                     Some (EKeyType true "retries" None "integer")))
    by reflexivity.
  eexists _, _, _. split; [exact H|].
  apply (Acquire_frame _ _ _ _ _ H). discriminate.
Defined.

(** *** What keys store *)

Lemma TypeOf_not_nil v : is_nil v = false -> exists t, TypeOf v = Some t.
Proof. destruct v; simpl; try discriminate; eauto. Qed.

Lemma implements_self t : implements t t = true.
Proof.
  unfold implements. apply forallb_forall. intros m Hm.
  apply bool_decide_eq_true. now apply list_elem_of_In.
Qed.

(** What [Check] accepted is a value the descriptor stands for. *)
Lemma Check_stored n d v v' :
  Check n d v = Ret (v', None) ->
  match d with
  | DType t =>
      exists vt, TypeOf v' = Some vt /\
        if bool_decide (type_kind t = Interface) then implements vt t = true
        else vt = t
  | DTyper T => exists v, Coerce T v = Ret (v', None)
  | DOther _ => False
  end.
Proof.
  destruct d as [t|T|o]; simpl.
  - unfold chkType, typeof.
    destruct (bool_decide (type_kind t = Interface)).
    + destruct (TypeOf v) as [vt|] eqn:Hvt; simpl; [|discriminate].
      destruct (implements vt t) eqn:Hi; simpl; intros [= <-]; eauto.
    + destruct (bool_decide (TypeOf v = Some t)) eqn:Hd; simpl.
      * intros [= <-]. apply bool_decide_eq_true in Hd. eauto.
      * destruct (NewTypeError n (of_type (TypeOf v)) (AType t)); discriminate.
  - destruct (Coerce T v) as [[w err]|] eqn:Hk; simpl; [|discriminate].
    intros Hc. exists v.
    destruct err as [[ | | | | [] | [] | ]|]; simpl in Hc;
      try discriminate; congruence.
  - discriminate.
Qed.

Lemma Set_stored k v k' err :
  stored_ok k -> Key_Set k v = Ret (k', err) ->
  stored_ok k' /\ typer_ k' = typer_ k.
Proof.
  intros Hk. unfold Key_Set. destruct (negb (is_nil v)) eqn:Hv.
  - destruct (Check (name k) (typer_ k) v) as [[w [e|]]|] eqn:Hc; simpl;
      [| |discriminate]; intros [= <- <-]; [now split|].
    split; [|reflexivity]. right. exact (Check_stored _ _ _ _ Hc).
  - intros [= <- <-]. split; [|reflexivity]. left.
    destruct v; simpl in *; congruence.
Qed.

(** X9.  Every key reachable through [New], [NewAuto] and the key
    operations has a [reflect.Type] or a [Typer] as descriptor, and holds
    nil, or a value of exactly that type (of a type implementing it, for
    an interface type), or a result of that coercion rule. *)
Theorem reachable_stored (k : Key) :
  reachable k -> IsTyper (typer_ k) = true /\ stored_ok k.
Proof.
  induction 1 as [n t d m ds k err Hn | n d m ds k err Hn
                 | k v k' err Hr IH Hs | k e k' e' err Hr IH Ha
                 | k e Hr IH | k e Hr IH | k e Hr IH | k m Hr IH].
  - unfold New in Hn. destruct (IsTyper t) eqn:Ht; simpl in Hn; [|discriminate].
    destruct (Key_Set _ d) as [[k0 e0]|] eqn:Hs; simpl in Hn; [|discriminate].
    injection Hn as <- <-.
    apply Set_stored in Hs as [Hs Hty]; [|now left].
    rewrite Hty. now split.
  - unfold NewAuto in Hn. destruct (is_nil d) eqn:Hd; [discriminate|].
    injection Hn as <- <-. destruct (TypeOf_not_nil _ Hd) as [t Ht].
    simpl. rewrite Ht. split; [reflexivity|]. right. simpl. rewrite Ht.
    exists t. split; [reflexivity|].
    destruct (bool_decide (type_kind t = Interface)); [apply implements_self | reflexivity].
  - destruct IH as [IH1 IH2]. apply (Set_stored _ _ _ _ IH2) in Hs as [Hs Hty].
    rewrite Hty. now split.
  - destruct IH as [IH1 IH2]. unfold Key_Acquire in Ha.
    destruct (Z.land (mode k) Read =? 0); [injection Ha as <- <- <-; now split|].
    destruct (negb (Executer_Has e (name k))).
    + destruct (negb (Z.land (mode k) Required =? 0)); injection Ha as <- <- <-;
        now split.
    + destruct (Executer_Get e (name k)) as [v gerr].
      destruct (Key_Set k v) as [[k1 e1]|] eqn:Hs; simpl in Ha; [|discriminate].
      injection Ha as <- <- <-.
      apply (Set_stored _ _ _ _ IH2) in Hs as [Hs Hty]. rewrite Hty. now split.
  - now rewrite (proj1 (sync_frame_any k e)).
  - now rewrite (proj1 (proj2 (sync_frame_any k e))).
  - now rewrite (proj2 (proj2 (sync_frame_any k e))).
  - exact IH.
Qed.

Lemma reachable_stored_witness :
  stored_ok {| name := "retries"; desc := ""; mode := ReadWrite;
               typer_ := DTyper Integer; val := VInt 5 |}.
Proof.
  apply reachable_stored.
  apply (reach_New "retries" (DTyper Integer) (VInt32 5) ReadWrite "" _ None).
  reflexivity.
Defined.

(** *** The built-in rules and the constructors *)

Lemma wrap_int_id z : - 2 ^ 63 <= z < 2 ^ 63 -> wrap_int z = z.
Proof.
  intros Hz. unfold wrap_int. rewrite Z.mod_small by lia. lia.
Qed.

(** X10.  Through [Check], the Integer rule accepts exactly int, int16,
    int32 and int64 values and yields an int, of the same number when it
    fits 64 bits; the Float rule accepts exactly float32 and float64
    values and yields a float64 of the same number.  Every other value is
    rejected with a type error that carries the checked name and wants
    the rule's name. *)
Theorem builtin_rules (n : string) (v : Value) :
  match as_int v with
  | Some z => Check n (DTyper Integer) v = Ret (VInt z, None)
  | None => exists got,
      Check n (DTyper Integer) v = Ret (VNil, Some (EKeyType true n got "integer"))
  end /\
  match as_float v with
  | Some f => Check n (DTyper Float) v = Ret (VFloat64 f, None)
  | None => exists got,
      Check n (DTyper Float) v = Ret (VNil, Some (EKeyType true n got "float"))
  end /\
  (forall z, - 2 ^ 63 <= z < 2 ^ 63 ->
     as_int (VInt z) = Some z /\ as_int (VInt16 z) = Some z /\
     as_int (VInt32 z) = Some z /\ as_int (VInt64 z) = Some z).
Proof.
  split; [|split].
  - destruct v; simpl; try reflexivity; exists None; now destruct (decide ("" = "")).
  - destruct v; simpl; try reflexivity; exists None; now destruct (decide ("" = "")).
  - intros z Hz. simpl. now rewrite (wrap_int_id _ Hz).
Qed.

Lemma builtin_rules_witness :
  as_int (VInt32 5) = Some 5.
Proof.
  apply (proj2 (proj2 (builtin_rules "retries" VNil)) 5). lia.
Defined.

(** X11.  [New] asks for no default: with a valid descriptor and a nil
    default it returns an empty key and no error.  With a default that
    [Check] rejects it returns the error together with a key, which is
    empty.  With an invalid descriptor it returns no key.  [NewAuto]
    refuses a nil default and otherwise returns a key of the default's
    type holding the default. *)
Theorem constructors_results (n ds : string) (t : Descriptor) (d : Value) (m : Mode) :
  (IsTyper t = false ->
     New n t d m ds = Ret (None, Some (ESentinel ErrNotTyper))) /\
  (IsTyper t = true ->
     New n t VNil m ds
       = Ret (Some {| name := n; desc := ds; mode := m; typer_ := t; val := VNil |},
              None)) /\
  (forall v' err, IsTyper t = true -> d <> VNil ->
     Check n t d = Ret (v', Some err) ->
     New n t d m ds
       = Ret (Some {| name := n; desc := ds; mode := m; typer_ := t; val := VNil |},
              Some err)) /\
  NewAuto n VNil m ds = (None, Some (ESentinel ErrMissingValue)) /\
  (d <> VNil ->
     exists dt, TypeOf d = Some dt /\
       NewAuto n d m ds
         = (Some {| name := n; desc := ds; mode := m; typer_ := DType dt; val := d |},
            None)).
Proof.
  split; [|split; [|split; [|split]]].
  - intros Ht. unfold New. now rewrite Ht.
  - intros Ht. unfold New. now rewrite Ht.
  - intros v' err Ht Hd Hc. unfold New, Key_Set. rewrite Ht. simpl.
    rewrite (is_nil_false _ Hd). simpl. now rewrite Hc.
  - reflexivity.
  - intros Hd. unfold NewAuto. rewrite (is_nil_false _ Hd).
    destruct (TypeOf_not_nil _ (is_nil_false _ Hd)) as [dt Ht].
    exists dt. now rewrite Ht.
Qed.

Lemma constructors_results_witness :
  New "retries" (DTyper Integer) (VString "many") Read ""
    = Ret (Some {| name := "retries"; desc := ""; mode := Read;
                   typer_ := DTyper Integer; val := VNil |},
           Some (EKeyType true "retries" None "integer")).
Proof.
  apply (proj1 (proj2 (proj2 (constructors_results "retries" "" (DTyper Integer)
                                (VString "many") Read))) VNil);
    [reflexivity | discriminate | reflexivity].
Defined.

(** *** Batches *)

Lemma Keys_batch ks e :
  Keys_Apply ks e = batch Key_Apply ks e /\
  Keys_ApplyOrNil ks e = batch Key_ApplyOrNil ks e /\
  Keys_Clobber ks e = batch Key_Clobber ks e.
Proof.
  revert e. induction ks as [|k ks IH]; intros e; [now repeat split|].
  simpl.
  destruct (Key_Apply k e) as [[k1 e1] [err1|]];
    destruct (Key_ApplyOrNil k e) as [[k2 e2] [err2|]];
    destruct (Key_Clobber k e) as [[k3 e3] [err3|]];
    repeat split; try reflexivity;
    first [ now rewrite (proj1 (IH _)) | now rewrite (proj1 (proj2 (IH _)))
          | now rewrite (proj2 (proj2 (IH _))) ].
Qed.

(** When each of the three operations returns an error. *)
Lemma sync_errors k e :
  ((Key_Apply k e).2 = None <-> (writable k -> is_func e (name k) = false)) /\
  ((Key_ApplyOrNil k e).2 = None <-> is_func e (name k) = false) /\
  ((Key_Clobber k e).2 = None <-> (writable k -> is_func e (name k) = false)).
Proof.
  unfold Key_Apply, Key_ApplyOrNil, Key_Clobber, writable.
  rewrite Executer_Has_lookup.
  destruct (Z.land (mode k) Write =? 0) eqn:Hw;
    [apply Z.eqb_eq in Hw | apply Z.eqb_neq in Hw];
    destruct (is_func e (name k)) eqn:Hf; simpl;
    rewrite ?(Executer_Set_ok _ _ _ Hf);
    unfold Executer_Set; rewrite ?Hf; simpl;
    repeat split; try tauto; try congruence; try discriminate;
    try (intros H; now specialize (H Hw));
    try (destruct (scope e !! name k) as [[]|]; simpl; tauto).
Qed.

(** The three operations hand the key back and keep the table of
    functions. *)
Lemma sync_keeps k e :
  ((Key_Apply k e).1.1 = k /\ funcs (Key_Apply k e).1.2 = funcs e) /\
  ((Key_ApplyOrNil k e).1.1 = k /\ funcs (Key_ApplyOrNil k e).1.2 = funcs e) /\
  ((Key_Clobber k e).1.1 = k /\ funcs (Key_Clobber k e).1.2 = funcs e).
Proof.
  assert (Hset : forall v,
    (let '(e1, err) := Executer_Set e (name k) v in (k, e1, err)).1.1 = k /\
    funcs (let '(e1, err) := Executer_Set e (name k) v in (k, e1, err)).1.2 = funcs e).
  { intros v. destruct (is_func e (name k)) eqn:Hf.
    - unfold Executer_Set. rewrite Hf. now split.
    - now rewrite (Executer_Set_ok _ _ _ Hf). }
  unfold Key_Apply, Key_ApplyOrNil, Key_Clobber.
  destruct (Z.land (mode k) Write =? 0); destruct (Executer_Has e (name k));
    simpl; auto.
Qed.

Section Batch.
Variable op : Key -> Executer -> Key * Executer * option Error.
Hypothesis op_keeps : forall k e,
  (op k e).1.1 = k /\ funcs (op k e).1.2 = funcs e.

Lemma batch_keeps ks e :
  (batch op ks e).1.1 = ks /\ funcs (batch op ks e).1.2 = funcs e.
Proof.
  revert e. induction ks as [|k ks IH]; intros e; [now split|].
  simpl. destruct (op_keeps k e) as [Hk Hf].
  destruct (op k e) as [[k1 e1] [err|]]; simpl in *; subst; [now split|].
  destruct (IH e1) as [Hks Hfs].
  destruct (batch op ks e1) as [[ks1 e2] err]. simpl in *. subst.
  split; congruence.
Qed.

(** A batch succeeds exactly when every step would succeed, for a
    success condition that depends on the table of functions only. *)
Lemma batch_ok (ok : Key -> gmap string bool -> Prop) ks e :
  (forall k e, (op k e).2 = None <-> ok k (funcs e)) ->
  (batch op ks e).2 = None <-> (forall k, k ∈ ks -> ok k (funcs e)).
Proof.
  intros Hok. revert e. induction ks as [|k ks IH]; intros e.
  - simpl. split; [intros _ k Hk; inversion Hk | reflexivity].
  - simpl. destruct (op_keeps k e) as [_ Hf]. specialize (Hok k e).
    destruct (op k e) as [[k1 e1] [err|]]; simpl in *.
    + split; [discriminate|]. intros Hall.
      assert (Some err = None) by (apply Hok, Hall; left). discriminate.
    + specialize (IH e1).
      destruct (batch op ks e1) as [[ks1 e2] err]. simpl in *.
      rewrite IH, Hf. split.
      * intros Hall k' Hk'. apply elem_of_cons in Hk' as [->|Hk'];
          [now apply Hok | now apply Hall].
      * intros Hall k' Hk'. apply Hall. now right.
Qed.

(** A batch stops at the first key that fails: the executer is the one
    the keys before it left, and the keys after it are not looked at. *)
Lemma batch_stops ks1 k ks2 e err :
  (batch op ks1 e).2 = None ->
  (op k (batch op ks1 e).1.2).2 = Some err ->
  batch op (ks1 ++ k :: ks2)%list e
    = ((ks1 ++ k :: ks2)%list, (op k (batch op ks1 e).1.2).1.2, Some err).
Proof.
  revert e. induction ks1 as [|k1 ks1 IH]; intros e H1 Hk; simpl in *.
  - destruct (op_keeps k e) as [Hkk _].
    destruct (op k e) as [[k' e'] err']. simpl in *. now subst.
  - destruct (op_keeps k1 e) as [Hkk _].
    destruct (op k1 e) as [[k1' e1] [err1|]]; simpl in *; [discriminate|].
    subst k1'. specialize (IH e1).
    destruct (batch op ks1 e1) as [[ks1' e2] err2]. simpl in *.
    now rewrite (IH H1 Hk).
Qed.
End Batch.

(** X12.  A batch [Apply] or [Clobber] returns an error exactly when some
    writable key has the name of a function, a batch [ApplyOrNil] exactly
    when some key has; none of them changes a key or the table of
    functions. *)
Theorem batch_errors (ks : list Key) (e : Executer) :
  ((Keys_Apply ks e).2 = None <->
     forall k, k ∈ ks -> writable k -> is_func e (name k) = false) /\
  ((Keys_ApplyOrNil ks e).2 = None <->
     forall k, k ∈ ks -> is_func e (name k) = false) /\
  ((Keys_Clobber ks e).2 = None <->
     forall k, k ∈ ks -> writable k -> is_func e (name k) = false) /\
  (Keys_Apply ks e).1.1 = ks /\ funcs (Keys_Apply ks e).1.2 = funcs e /\
  (Keys_ApplyOrNil ks e).1.1 = ks /\ funcs (Keys_ApplyOrNil ks e).1.2 = funcs e /\
  (Keys_Clobber ks e).1.1 = ks /\ funcs (Keys_Clobber ks e).1.2 = funcs e.
Proof.
  destruct (Keys_batch ks e) as [-> [-> ->]].
  pose proof (batch_keeps Key_Apply (fun k e => proj1 (sync_keeps k e)) ks e) as [? ?].
  pose proof (batch_keeps Key_ApplyOrNil
                (fun k e => proj1 (proj2 (sync_keeps k e))) ks e) as [? ?].
  pose proof (batch_keeps Key_Clobber
                (fun k e => proj2 (proj2 (sync_keeps k e))) ks e) as [? ?].
  repeat split; try assumption.
  - apply (batch_ok Key_Apply (fun k e => proj1 (sync_keeps k e))
             (fun k fs => writable k -> default false (fs !! name k) = false)).
    intros k' e'. apply (proj1 (sync_errors k' e')).
  - apply (batch_ok Key_Apply (fun k e => proj1 (sync_keeps k e))
             (fun k fs => writable k -> default false (fs !! name k) = false)).
    intros k' e'. apply (proj1 (sync_errors k' e')).
  - apply (batch_ok Key_ApplyOrNil (fun k e => proj1 (proj2 (sync_keeps k e)))
             (fun k fs => default false (fs !! name k) = false)).
    intros k' e'. apply (proj1 (proj2 (sync_errors k' e'))).
  - apply (batch_ok Key_ApplyOrNil (fun k e => proj1 (proj2 (sync_keeps k e)))
             (fun k fs => default false (fs !! name k) = false)).
    intros k' e'. apply (proj1 (proj2 (sync_errors k' e'))).
  - apply (batch_ok Key_Clobber (fun k e => proj2 (proj2 (sync_keeps k e)))
             (fun k fs => writable k -> default false (fs !! name k) = false)).
    intros k' e'. apply (proj2 (proj2 (sync_errors k' e'))).
  - apply (batch_ok Key_Clobber (fun k e => proj2 (proj2 (sync_keeps k e)))
             (fun k fs => writable k -> default false (fs !! name k) = false)).
    intros k' e'. apply (proj2 (proj2 (sync_errors k' e'))).
Qed.

Lemma batch_errors_witness :
  (Keys_Apply [timeout; retries Write] funcEnv).2
    = Some (ENew "function with that name already exists") /\
  (Keys_Apply [timeout; retries Read] funcEnv).2 = None.
Proof.
  split; [reflexivity|].
  apply (proj1 (batch_errors [timeout; retries Read] funcEnv)).
  intros k Hk Hw.
  apply elem_of_cons in Hk as [->|Hk]; [reflexivity|].
  apply elem_of_cons in Hk as [->|Hk]; [|inversion Hk].
  exfalso. apply Hw. reflexivity.
Defined.

(** X13.  The batches fail fast and do not roll back: when the keys
    before a writable key with the name of a function go through, the
    batch returns that key's error, the executer is as those keys left
    it, and the keys after it are not applied. *)
Theorem batch_fails_fast (ks1 ks2 : list Key) (k : Key) (e : Executer) :
  writable k -> is_func e (name k) = true ->
  ((Keys_Apply ks1 e).2 = None ->
     Keys_Apply (ks1 ++ k :: ks2)%list e
       = ((ks1 ++ k :: ks2)%list, (Keys_Apply ks1 e).1.2,
          Some (ENew "function with that name already exists"))) /\
  ((Keys_ApplyOrNil ks1 e).2 = None ->
     Keys_ApplyOrNil (ks1 ++ k :: ks2)%list e
       = ((ks1 ++ k :: ks2)%list, (Keys_ApplyOrNil ks1 e).1.2,
          Some (ENew "function with that name already exists"))) /\
  ((Keys_Clobber ks1 e).2 = None ->
     Keys_Clobber (ks1 ++ k :: ks2)%list e
       = ((ks1 ++ k :: ks2)%list, (Keys_Clobber ks1 e).1.2,
          Some (ENew "function with that name already exists"))).
Proof.
  intros Hw Hf.
  assert (Hstep : forall e1, funcs e1 = funcs e ->
    Key_Apply k e1 = (k, e1, Some (ENew "function with that name already exists")) /\
    Key_ApplyOrNil k e1
      = (k, e1, Some (ENew "function with that name already exists")) /\
    Key_Clobber k e1 = (k, e1, Some (ENew "function with that name already exists"))).
  { intros e1 He1.
    assert (Hf1 : is_func e1 (name k) = true) by (unfold is_func in *; now rewrite He1).
    unfold Key_Apply, Key_ApplyOrNil, Key_Clobber, Executer_Has, Executer_Set.
    apply Z.eqb_neq in Hw. now rewrite Hw, Hf1. }
  destruct (Keys_batch ks1 e) as [-> [-> ->]].
  destruct (Keys_batch (ks1 ++ k :: ks2) e) as [-> [-> ->]].
  split; [|split]; intros H1.
  - pose proof (batch_keeps Key_Apply (fun k e => proj1 (sync_keeps k e)) ks1 e)
      as [_ Hfs].
    destruct (Hstep _ Hfs) as [Hs _].
    rewrite (batch_stops Key_Apply (fun k e => proj1 (sync_keeps k e)) ks1 k ks2 e
               (ENew "function with that name already exists") H1);
      now rewrite Hs.
  - pose proof (batch_keeps Key_ApplyOrNil
                  (fun k e => proj1 (proj2 (sync_keeps k e))) ks1 e) as [_ Hfs].
    destruct (Hstep _ Hfs) as [_ [Hs _]].
    rewrite (batch_stops Key_ApplyOrNil (fun k e => proj1 (proj2 (sync_keeps k e)))
               ks1 k ks2 e (ENew "function with that name already exists") H1);
      now rewrite Hs.
  - pose proof (batch_keeps Key_Clobber
                  (fun k e => proj2 (proj2 (sync_keeps k e))) ks1 e) as [_ Hfs].
    destruct (Hstep _ Hfs) as [_ [_ Hs]].
    rewrite (batch_stops Key_Clobber (fun k e => proj2 (proj2 (sync_keeps k e)))
               ks1 k ks2 e (ENew "function with that name already exists") H1);
      now rewrite Hs.
Qed.

Lemma batch_fails_fast_witness :
  scope (Keys_Clobber [timeout; retries Write; retries Read] funcEnv).1.2 !! "timeout"
    = Some (VInt 30) /\
  (Keys_Clobber [timeout; retries Write; retries Read] funcEnv).2
    = Some (ENew "function with that name already exists").
Proof.
  destruct (batch_fails_fast [timeout] [retries Read] (retries Write) funcEnv)
    as [_ [_ Hc]]; [vm_compute; discriminate | reflexivity |].
  change ([timeout; retries Write; retries Read])
    with ([timeout] ++ retries Write :: [retries Read])%list.
  rewrite Hc by reflexivity. split; reflexivity.
Defined.

(** [Apply] on a name that is present is a no-op; on another name it
    leaves the presence and binding of this one alone. *)
Lemma Apply_keeps_present k e m :
  Executer_Has e m = true ->
  scope (Key_Apply k e).1.2 !! m = scope e !! m /\
  Executer_Has (Key_Apply k e).1.2 m = true.
Proof.
  intros Hm. destruct (decide (m = name k)) as [->|Hne].
  - unfold Key_Apply. rewrite Hm.
    destruct (Z.land (mode k) Write =? 0); now split.
  - assert (Hs : scope (Key_Apply k e).1.2 !! m = scope e !! m).
    { unfold Key_Apply.
      destruct (Z.land (mode k) Write =? 0); [reflexivity|].
      destruct (negb (Executer_Has e (name k))); [|reflexivity].
      destruct (Set_frame e (name k) (val k) m Hne) as [H1 _].
      now destruct (Executer_Set e (name k) (val k)). }
    split; [exact Hs|].
    rewrite Executer_Has_lookup in *. unfold is_func in *.
    rewrite (proj2 (proj1 (sync_keeps k e))). now rewrite Hs.
Qed.

(** X14.  A batch [Apply] never changes the binding of a name that was
    present before the batch, whatever keys it holds and however it ends. *)
Theorem batch_Apply_keeps_present (ks : list Key) (e : Executer) (m : string) :
  Executer_Has e m = true ->
  scope (Keys_Apply ks e).1.2 !! m = scope e !! m.
Proof.
  revert e. induction ks as [|k ks IH]; intros e Hm; [reflexivity|].
  simpl. destruct (Apply_keeps_present k e m Hm) as [Hs Hh].
  destruct (Key_Apply k e) as [[k1 e1] [err|]]; simpl in *; [exact Hs|].
  specialize (IH e1 Hh).
  destruct (Keys_Apply ks e1) as [[ks1 e2] err]. simpl in *. congruence.
Qed.

Lemma batch_Apply_keeps_present_witness :
  scope (Keys_Apply [timeout; retries Write] fiveEnv).1.2 !! "retries"
    = Some (VInt32 5).
Proof.
  rewrite (batch_Apply_keeps_present [timeout; retries Write] fiveEnv "retries");
    reflexivity.
Defined.

(** A [Clobber] that returned no error. *)
Lemma Clobber_result k e :
  (Key_Clobber k e).2 = None ->
  (writable k -> scope (Key_Clobber k e).1.2 = <[name k := val k]> (scope e)) /\
  (~ writable k -> (Key_Clobber k e).1.2 = e).
Proof.
  unfold Key_Clobber, writable.
  destruct (Z.land (mode k) Write =? 0) eqn:Hw; simpl.
  - apply Z.eqb_eq in Hw. intros _. split; [congruence | reflexivity].
  - apply Z.eqb_neq in Hw. destruct (is_func e (name k)) eqn:Hf.
    + unfold Executer_Set. rewrite Hf. discriminate.
    + rewrite (Executer_Set_ok _ _ _ Hf). simpl. intros _. split; [reflexivity | tauto].
Qed.

(** X15.  After a batch [Clobber] that returned no error, on keys of
    distinct names, every writable key's name is bound to that key's
    value, and every name that no writable key has is bound as before. *)
Theorem batch_Clobber_binds (ks : list Key) (e : Executer) :
  (Keys_Clobber ks e).2 = None ->
  NoDup (name <$> ks) ->
  (forall k, k ∈ ks -> writable k ->
     scope (Keys_Clobber ks e).1.2 !! name k = Some (val k)) /\
  (forall m, (forall k, k ∈ ks -> writable k -> name k <> m) ->
     scope (Keys_Clobber ks e).1.2 !! m = scope e !! m).
Proof.
  revert e. induction ks as [|k ks IH]; intros e Hok Hnd.
  - split; [intros k Hk; inversion Hk | reflexivity].
  - rewrite fmap_cons in Hnd. apply NoDup_cons in Hnd as [Hk Hnd].
    simpl in Hok |- *.
    pose proof (Clobber_result k e) as Hres.
    destruct (Key_Clobber k e) as [[k1 e1] [err|]]; simpl in *; [discriminate|].
    destruct (Hres eq_refl) as [Hyes Hno]. clear Hres.
    specialize (IH e1).
    destruct (Keys_Clobber ks e1) as [[ks1 e2] err2]. simpl in *.
    destruct (IH Hok Hnd) as [IH1 IH2]. clear IH.
    assert (Hfresh : forall k', k' ∈ ks -> name k' <> name k).
    { intros k' Hk' Heq. apply Hk. rewrite <- Heq. now apply list_elem_of_fmap_2. }
    split.
    + intros k' Hk' Hw. apply elem_of_cons in Hk' as [->|Hk']; [|now apply IH1].
      rewrite IH2 by (intros k' Hk' _; now apply Hfresh).
      rewrite (Hyes Hw). apply lookup_insert_eq.
    + intros m Hm. rewrite IH2 by (intros k' Hk' Hw; apply Hm; [now right | exact Hw]).
      destruct (decide (Z.land (mode k) Write = 0)) as [Hz|Hnz].
      * rewrite Hno; [reflexivity|]. unfold writable. tauto.
      * rewrite (Hyes Hnz). apply lookup_insert_ne. apply Hm; [now left | exact Hnz].
Qed.

Lemma batch_Clobber_binds_witness :
  scope (Keys_Clobber [timeout; retries Write] fiveEnv).1.2 !! "retries"
    = Some (VInt 3).
Proof.
  assert (Hnd : NoDup (name <$> [timeout; retries Write]))
    by (apply (bool_decide_unpack _); reflexivity).
  apply (proj1 (batch_Clobber_binds [timeout; retries Write] fiveEnv eq_refl Hnd)
           (retries Write)).
  - right. left.
  - vm_compute. discriminate.
Defined.

(** X16.  A batch [Acquire] that returns never changes the executer, and
    hands back as many keys, with the names, modes and descriptors they
    had.  With a handler that maps every error to nil it returns no
    error. *)
Theorem batch_Acquire_frame (ks ks' : list Key) (e e' : Executer)
    (h : option Error -> option Error) (err : option Error) :
  Keys_Acquire ks e h = Ret (ks', e', err) ->
  e' = e /\
  name <$> ks' = name <$> ks /\
  mode <$> ks' = mode <$> ks /\
  typer_ <$> ks' = typer_ <$> ks /\
  ((forall x, h x = None) -> err = None).
Proof.
  revert ks' e' err. induction ks as [|k ks IH]; intros ks' e' err; simpl.
  - intros [= <- <- <-]. now repeat split.
  - destruct (Key_Acquire k e) as [[[k1 e1] err1]|] eqn:Ha; simpl; [|discriminate].
    destruct (Acquire_shape _ _ _ _ _ Ha) as [-> [Hn [_ [Hm [Ht _]]]]].
    destruct (h err1) as [herr|] eqn:Hh.
    + intros [= <- <- <-]. rewrite !fmap_cons, Hn, Hm, Ht.
      repeat split. intros Hall. now rewrite Hall in Hh.
    + destruct (Keys_Acquire ks e h) as [[[ks1 e2] err2]|] eqn:Hks; simpl;
        [|discriminate].
      intros [= <- <- <-].
      destruct (IH _ _ _ eq_refl) as [-> [Hns [Hms [Hts Hsw]]]].
      rewrite !fmap_cons, Hn, Hm, Ht, Hns, Hms, Hts. now repeat split.
Qed.

Lemma batch_Acquire_frame_witness :
  exists ks' e' err,
    Keys_Acquire [retries Read; timeout] mixedEnv (fun _ => None)
      = Ret (ks', e', err) /\
    val <$> ks' = [VInt 3; VInt 10] /\ e' = mixedEnv /\ err = None.
Proof.
  assert (H : Keys_Acquire [retries Read; timeout] mixedEnv (fun _ => None)
              = Ret ([retries Read; with_val timeout (VInt 10)], mixedEnv, None))
    by reflexivity.
  destruct (batch_Acquire_frame _ _ _ _ _ _ H) as [He [_ [_ [_ Herr]]]].
  eexists _, _, _. split; [exact H|].
  split; [reflexivity|]. split; [reflexivity | now apply Herr].
Defined.

(** X17.  With a handler that hands every error back, a batch [Acquire]
    that returns an error stopped at the first key whose [Acquire]
    failed: the keys before it were acquired without error, that key and
    the keys after it are as they were. *)
Theorem batch_Acquire_stops (ks ks' : list Key) (e e' : Executer) (err : Error) :
  Keys_Acquire ks e (fun x => x) = Ret (ks', e', Some err) ->
  exists ks1 ks1' k ks2,
    ks = (ks1 ++ k :: ks2)%list /\
    ks' = (ks1' ++ k :: ks2)%list /\
    Keys_Acquire ks1 e (fun x => x) = Ret (ks1', e, None) /\
    Key_Acquire k e = Ret (k, e, Some err).
Proof.
  revert ks'. induction ks as [|k ks IH]; intros ks'; simpl; [discriminate|].
  destruct (Key_Acquire k e) as [[[k1 e1] err1]|] eqn:Ha; simpl; [|discriminate].
  destruct (Acquire_shape _ _ _ _ _ Ha) as [-> [_ [_ [_ [_ Hsame]]]]].
  destruct err1 as [err1|].
  - intros [= <- <- <-]. rewrite Hsame in * by discriminate.
    exists [], [], k, ks. now repeat split.
  - destruct (Keys_Acquire ks e (fun x => x)) as [[[ks1 e2] err2]|] eqn:Hks; simpl;
      [|discriminate].
    intros [= <- <- ->].
    destruct (IH _ eq_refl) as [l1 [l1' [k2 [l2 [-> [-> [Hl1 Hk2]]]]]]].
    exists (k :: l1), (k1 :: l1'), k2, l2. repeat split; try assumption.
    simpl. rewrite Ha. simpl. now rewrite Hl1.
Qed.

Lemma batch_Acquire_stops_witness :
  exists ks1 ks1' k ks2,
    [timeout; retries Read; retries Write] = (ks1 ++ k :: ks2)%list /\
    Keys_Acquire ks1 mixedEnv (fun x => x) = Ret (ks1', mixedEnv, None) /\
    Key_Acquire k mixedEnv
      = Ret (k, mixedEnv, Some (EKeyType true "retries" None "integer")).
Proof.
  assert (H : Keys_Acquire [timeout; retries Read; retries Write] mixedEnv (fun x => x)
              = Ret ([with_val timeout (VInt 10); retries Read; retries Write],
                     mixedEnv, Some (EKeyType true "retries" None "integer")))
    by reflexivity.
  destruct (batch_Acquire_stops _ _ _ _ _ H) as [ks1 [ks1' [k [ks2 [H1 [H2 [H3 H4]]]]]]].
  exists ks1, ks1', k, ks2. now repeat split.
Defined.

(** *** KeyMap *)

#[local] Instance string_le_total : Total string_le.
Proof. intros a b. apply String.leb_total. Qed.

#[local] Instance string_le_antisym : AntiSymm (=) string_le.
Proof. intros a b. apply String.leb_antisym. Qed.

Lemma ascii_compare_trans a b c o :
  Ascii.compare a b = o -> Ascii.compare b c = o -> Ascii.compare a c = o.
Proof.
  unfold Ascii.compare. destruct o; intros H1 H2.
  - apply N.compare_eq_iff in H1, H2. apply N.compare_eq_iff. congruence.
  - apply N.compare_lt_iff in H1. apply N.compare_lt_iff in H2.
    apply N.compare_lt_iff. eapply N.lt_trans; eassumption.
  - apply N.compare_gt_iff in H1. apply N.compare_gt_iff in H2.
    apply N.compare_gt_iff. eapply N.lt_trans; eassumption.
Qed.

#[local] Instance string_le_trans : Transitive string_le.
Proof.
  unfold string_le, String.leb. intros s1.
  induction s1 as [|a s1 IH]; intros [|b s2] [|c s3]; simpl; try done.
  destruct (Ascii.compare a b) eqn:Hab; try done;
    destruct (Ascii.compare b c) eqn:Hbc; try done.
  - apply Ascii.compare_eq_iff in Hab, Hbc. subst.
    replace (Ascii.compare c c) with Eq
      by (symmetry; unfold Ascii.compare; apply N.compare_refl).
    apply IH.
  - apply Ascii.compare_eq_iff in Hab. subst. now rewrite Hbc.
  - apply Ascii.compare_eq_iff in Hbc. subst. now rewrite Hab.
  - now rewrite (ascii_compare_trans _ _ _ _ Hab Hbc).
Qed.

(** [sort.Strings] has one possible result: a sorted permutation of the
    argument is the list [sort_Strings] computes. *)
Lemma sort_Strings_unique xs ys :
  StronglySorted string_le ys -> ys ≡ₚ xs -> ys = sort_Strings xs.
Proof.
  intros Hs Hp. apply (StronglySorted_unique string_le); [exact Hs| |].
  - apply (StronglySorted_merge_sort string_le).
  - rewrite Hp. symmetry. apply (merge_sort_Permutation string_le).
Qed.

Lemma KeyNames_nodup (km : gmap string Key) : NoDup (KeyNames km).
Proof.
  unfold KeyNames, KeyNames_in, sort_Strings.
  rewrite (merge_sort_Permutation string_le). apply NoDup_fst_map_to_list.
Qed.

(** X18.  [KeyNames] does not depend on the order in which the map is
    iterated: from any order of the map's names it gives the same list,
    which is sorted, has no duplicates, and holds exactly the names the
    map has a key for. *)
Theorem KeyNames_sorted (km : gmap string Key) (order : list string) :
  order ≡ₚ (map_to_list km).*1 ->
  KeyNames_in order = KeyNames km /\
  StronglySorted string_le (KeyNames km) /\
  NoDup (KeyNames km) /\
  (forall n, n ∈ KeyNames km <-> is_Some (km !! n)).
Proof.
  intros Hp. unfold KeyNames, KeyNames_in.
  assert (Hperm : forall l, sort_Strings l ≡ₚ l)
    by (intros l; apply (merge_sort_Permutation string_le)).
  split; [|split; [|split]].
  - apply sort_Strings_unique.
    + apply (StronglySorted_merge_sort string_le).
    + now rewrite Hperm.
  - apply (StronglySorted_merge_sort string_le).
  - rewrite Hperm. apply NoDup_fst_map_to_list.
  - intros n. rewrite Hperm. rewrite list_elem_of_fmap. split.
    + intros [[n' k] [-> Hk]]. apply elem_of_map_to_list in Hk. now exists k.
    + intros [k Hk]. exists (n, k). split; [reflexivity|].
      now apply elem_of_map_to_list.
Qed.

Lemma KeyNames_sorted_witness :
  KeyNames_in ["timeout"; "retries"] = KeyNames twoKeys /\
  KeyNames_in ["retries"; "timeout"] = KeyNames twoKeys /\
  KeyNames twoKeys = ["retries"; "timeout"].
Proof.
  assert (Hp : ["timeout"; "retries"] ≡ₚ (map_to_list twoKeys).*1).
  { unfold twoKeys. rewrite map_to_list_insert by reflexivity.
    now rewrite map_to_list_singleton. }
  assert (H1 := proj1 (KeyNames_sorted twoKeys ["timeout"; "retries"] Hp)).
  split; [exact H1|]. split.
  - apply (KeyNames_sorted twoKeys ["retries"; "timeout"]).
    rewrite <- Hp. apply Permutation_swap.
  - rewrite <- H1. reflexivity.
Defined.

Lemma New_name n t d m ds k err :
  New n t d m ds = Ret (Some k, err) -> name k = n.
Proof.
  unfold New. destruct (negb (IsTyper t)); [discriminate|].
  unfold Key_Set. destruct (negb (is_nil d)).
  - destruct (Check _ _ d) as [[w [e|]]|]; simpl; [| |discriminate];
      now intros [= <- <-].
  - simpl. now intros [= <- <-].
Qed.

Lemma NewAuto_name n d m ds k err :
  NewAuto n d m ds = (Some k, err) -> name k = n.
Proof.
  unfold NewAuto. destruct (is_nil d); [discriminate|]. now intros [= <- <-].
Qed.

Lemma km_named_insert km n k :
  km_named km -> name k = n -> km_named (<[n := k]> km).
Proof.
  intros Hkm Hn n' k' Hl. apply lookup_insert_Some in Hl as [[<- <-]|[_ Hl]];
    [exact Hn | now apply Hkm].
Qed.

(** X19.  [Create] and [CreateAuto] on a name the map already has return
    ErrKeyExists and leave the map as it is.  Whenever they return an
    error the map is unchanged and no key is returned; when they return a
    key, it is stored under the given name, which is its own, and every
    other entry is as before.  So a map in which every key is stored
    under its own name stays one. *)
Theorem KeyMap_Create_results (km km' : gmap string Key) (n ds : string)
    (t : Descriptor) (d : Value) (m : Mode) (ok : option Key) (err : option Error) :
  (KeyMap_Create km n t d m ds = Ret (km', ok, err) \/
   KeyMap_CreateAuto km n d m ds = (km', ok, err)) ->
  (is_Some (km !! n) -> err = Some (ESentinel ErrKeyExists)) /\
  (err <> None -> km' = km /\ ok = None) /\
  (forall k, ok = Some k ->
     err = None /\ km !! n = None /\ name k = n /\ km' = <[n := k]> km) /\
  (km_named km -> km_named km').
Proof.
  intros Hc.
  assert (Hcases :
    (km' = km /\ ok = None /\ (is_Some (km !! n) -> err = Some (ESentinel ErrKeyExists))) \/
    (exists k, ok = Some k /\ err = None /\ km !! n = None /\ name k = n /\
               km' = <[n := k]> km)).
  { destruct Hc as [Hc|Hc].
    - unfold KeyMap_Create in Hc. destruct (km !! n) as [k0|] eqn:Hl.
      + injection Hc as <- <- <-. left. now repeat split.
      + destruct (New n t d m ds) as [[[k|] [e|]]|] eqn:Hn; simpl in Hc;
          try discriminate; injection Hc as <- <- <-.
        * left. repeat split. now intros [? ?].
        * right. exists k. repeat split. exact (New_name _ _ _ _ _ _ _ Hn).
        * left. repeat split. now intros [? ?].
        * left. repeat split. now intros [? ?].
    - unfold KeyMap_CreateAuto in Hc. destruct (km !! n) as [k0|] eqn:Hl.
      + injection Hc as <- <- <-. left. now repeat split.
      + destruct (NewAuto n d m ds) as [[k|] [e|]] eqn:Hn;
          injection Hc as <- <- <-.
        * left. repeat split. now intros [? ?].
        * right. exists k. repeat split. exact (NewAuto_name _ _ _ _ _ _ Hn).
        * left. repeat split. now intros [? ?].
        * left. repeat split. now intros [? ?]. }
  destruct Hcases as [[-> [-> Hex]]|[k [-> [-> [Hl [Hn ->]]]]]].
  - split; [exact Hex|]. split; [now intros _|]. split; [intros k [=]|].
    now intros Hkm.
  - split; [rewrite Hl; now intros [? ?]|]. split; [congruence|].
    split; [intros k' [= <-]; now repeat split|].
    intros Hkm. now apply km_named_insert.
Qed.

Lemma KeyMap_Create_results_witness :
  exists km' ok err,
    KeyMap_CreateAuto {[ "retries" := retries Read ]} "retries" (VInt 9) Read ""
      = (km', ok, err) /\
    err = Some (ESentinel ErrKeyExists) /\
    km' = {[ "retries" := retries Read ]}.
Proof.
  destruct (KeyMap_CreateAuto {[ "retries" := retries Read ]} "retries" (VInt 9)
              Read "") as [[km' ok] err] eqn:H.
  destruct (KeyMap_Create_results _ _ "retries" "" (DTyper Integer) (VInt 9) Read
              _ _ (or_intror H)) as [H1 [H2 _]].
  assert (He : err = Some (ESentinel ErrKeyExists))
    by (apply H1; eexists; reflexivity).
  exists km', ok, err. split; [reflexivity|]. split; [exact He|].
  apply H2. rewrite He. discriminate.
Defined.

#[local] Instance name_le_total : Total name_le.
Proof. intros a b. apply string_le_total. Qed.

#[local] Instance name_le_trans : Transitive name_le.
Proof. intros a b c. apply string_le_trans. Qed.

(** Two orders of the same elements that agree on keys without
    duplicates are the same order. *)
Lemma perm_eq_by_key {A B} (f : A -> B) (l1 l2 : list A) :
  NoDup (f <$> l1) -> l1 ≡ₚ l2 -> f <$> l1 = f <$> l2 -> l1 = l2.
Proof.
  revert l2. induction l1 as [|x l1 IH]; intros l2 Hnd Hp Hf.
  - symmetry. now apply Permutation_nil_r.
  - destruct l2 as [|y l2]; [discriminate|].
    rewrite !fmap_cons in Hf. injection Hf as Hxy Hf.
    rewrite fmap_cons in Hnd. apply NoDup_cons in Hnd as [Hx Hnd].
    assert (y = x) as ->.
    { assert (Hy : y ∈ x :: l1) by (rewrite Hp; left).
      apply elem_of_cons in Hy as [->|Hy]; [reflexivity|].
      exfalso. apply Hx. rewrite Hxy. now apply list_elem_of_fmap_2. }
    f_equal. apply IH; [exact Hnd | | exact Hf].
    now apply (Permutation_cons_inv Hp).
Qed.

Lemma named_names (km : gmap string Key) :
  km_named km -> name <$> (map_to_list km).*2 = (map_to_list km).*1.
Proof.
  intros Hkm. rewrite <- list_fmap_compose. apply list_fmap_ext.
  intros i [n k] Hi. simpl. apply Hkm, elem_of_map_to_list.
  now apply list_elem_of_lookup_2 in Hi.
Qed.

(** X20.  In a map that stores every key under its own name, [Keys] does
    not depend on the order in which the map is iterated: from any order
    of the map's keys it gives the same list, whose names are the list
    [KeyNames] gives, and which holds exactly the keys of the map. *)
Theorem KeyMap_Keys_sorted (km : gmap string Key) (order : list Key) :
  km_named km ->
  order ≡ₚ (map_to_list km).*2 ->
  Keys_in order = KeyMap_Keys km /\
  name <$> KeyMap_Keys km = KeyNames km /\
  (forall k, k ∈ KeyMap_Keys km <-> km !! name k = Some k).
Proof.
  intros Hkm Hp. unfold KeyMap_Keys, Keys_in.
  assert (Hperm : forall l, sort_Keys l ≡ₚ l)
    by (intros l; apply (merge_sort_Permutation name_le)).
  assert (Hnames : forall l, l ≡ₚ (map_to_list km).*2 ->
            name <$> sort_Keys l = KeyNames km).
  { intros l Hl. apply sort_Strings_unique.
    - apply (StronglySorted_fmap name name_le string_le); [now intros a b|].
      apply (StronglySorted_merge_sort name_le).
    - rewrite (Hperm l), Hl. now rewrite (named_names _ Hkm). }
  split; [|split].
  - apply (perm_eq_by_key name).
    + rewrite (Hnames _ Hp). apply (KeyNames_nodup km).
    + now rewrite !Hperm.
    + now rewrite !Hnames.
  - now apply Hnames.
  - intros k. rewrite Hperm. rewrite list_elem_of_fmap. split.
    + intros [[n k'] [-> Hk]]. apply elem_of_map_to_list in Hk. simpl.
      now rewrite (Hkm _ _ Hk).
    + intros Hk. exists (name k, k). split; [reflexivity|].
      now apply elem_of_map_to_list.
Qed.

Lemma KeyMap_Keys_sorted_witness :
  Keys_in [timeout; retries Read] = KeyMap_Keys twoKeys /\
  Keys_in [retries Read; timeout] = KeyMap_Keys twoKeys /\
  name <$> KeyMap_Keys twoKeys = ["retries"; "timeout"].
Proof.
  assert (Hn : km_named twoKeys).
  { intros n k Hl. unfold twoKeys in Hl.
    apply lookup_insert_Some in Hl as [[<- <-]|[_ Hl]]; [reflexivity|].
    apply lookup_singleton_Some in Hl as [<- <-]. reflexivity. }
  assert (Hp : [timeout; retries Read] ≡ₚ (map_to_list twoKeys).*2).
  { unfold twoKeys. rewrite map_to_list_insert by reflexivity.
    now rewrite map_to_list_singleton. }
  assert (H1 := KeyMap_Keys_sorted twoKeys [timeout; retries Read] Hn Hp).
  split; [exact (proj1 H1)|]. split.
  - apply (KeyMap_Keys_sorted twoKeys [retries Read; timeout] Hn).
    rewrite <- Hp. apply Permutation_swap.
  - rewrite <- (proj1 H1). reflexivity.
Defined.

(** *** FuncMap and New *)

Lemma entries_of (fm : gmap string HostFunc) (order : list (string * HostFunc)) :
  order ≡ₚ map_to_list fm ->
  NoDup order.*1 /\ (list_to_map order : gmap string HostFunc) = fm.
Proof.
  intros Hp. split.
  - rewrite Hp. apply NoDup_fst_map_to_list.
  - rewrite <- (list_to_map_to_list fm). apply list_to_map_proper; [|exact Hp].
    rewrite Hp. apply NoDup_fst_map_to_list.
Qed.

Lemma Import_in_lookup (order : list (string * HostFunc)) fm k :
  NoDup order.*1 ->
  FuncMap_Import_in order fm !! k =
    match (list_to_map order : gmap string HostFunc) !! k with
    | Some v => Some v
    | None => fm !! k
    end.
Proof.
  unfold FuncMap_Import_in. revert fm.
  induction order as [|[k0 v0] rest IH]; intros fm Hnd; [reflexivity|].
  rewrite fmap_cons in Hnd. apply NoDup_cons in Hnd as [Hk0 Hnd]. simpl.
  rewrite (IH _ Hnd).
  simpl in Hk0.
  destruct (decide (k0 = k)) as [->|Hne].
  - rewrite (not_elem_of_list_to_map_1 _ _ Hk0). now rewrite !lookup_insert_eq.
  - rewrite !lookup_insert_ne by exact Hne. reflexivity.
Qed.

(** X21.  [Import] does not depend on the order in which the imported
    map is iterated: the result has the entries of the imported map and,
    under every other name, the entry it had. *)
Theorem Import_overrides (fm o : gmap string HostFunc)
    (order : list (string * HostFunc)) :
  order ≡ₚ map_to_list o ->
  FuncMap_Import_in order fm = o ∪ fm.
Proof.
  intros Hp. destruct (entries_of _ _ Hp) as [Hnd Hl].
  apply map_eq. intros k. rewrite (Import_in_lookup _ _ _ Hnd), Hl.
  rewrite lookup_union. now destruct (o !! k), (fm !! k).
Qed.

Lemma Import_overrides_witness :
  FuncMap_Import_in [("read", AdapterSpec.readFile); ("log", AdapterSpec.logf)]
      {[ "read" := AdapterSpec.logf ]}
    = twoFuncs ∪ {[ "read" := AdapterSpec.logf ]} /\
  FuncMap_Import_in [("log", AdapterSpec.logf); ("read", AdapterSpec.readFile)]
      {[ "read" := AdapterSpec.logf ]}
    = twoFuncs ∪ {[ "read" := AdapterSpec.logf ]}.
Proof.
  assert (Hp : [("read", AdapterSpec.readFile); ("log", AdapterSpec.logf)]
               ≡ₚ map_to_list twoFuncs).
  { unfold twoFuncs. rewrite map_to_list_insert by reflexivity.
    now rewrite map_to_list_singleton. }
  split.
  - apply (Import_overrides _ twoFuncs _ Hp).
  - apply (Import_overrides _ twoFuncs). rewrite <- Hp. apply Permutation_swap.
Defined.

Lemma Export_in_lookup (order : list (string * HostFunc)) s s' n :
  NoDup order.*1 ->
  FuncMap_Export_in order s = Ret s' ->
  s' !! n = exported (list_to_map order) s n.
Proof.
  unfold exported. revert s.
  induction order as [|[k f] rest IH]; intros s Hnd; simpl.
  - intros [= <-]. rewrite lookup_empty. now destruct (s !! n).
  - rewrite fmap_cons in Hnd. apply NoDup_cons in Hnd as [Hk Hnd].
    pose proof (not_elem_of_list_to_map_1 (M := gmap string) _ _ Hk) as Hfresh.
    simpl in Hfresh.
    destruct (is_nil (hf_value f)) eqn:Hf; simpl.
    + intros He. rewrite (IH _ Hnd He).
      destruct (decide (k = n)) as [->|Hne].
      * rewrite lookup_insert_eq, Hfresh, Hf. reflexivity.
      * now rewrite lookup_insert_ne by exact Hne.
    + destruct (Func k f) as [w|]; simpl; [|discriminate].
      intros He. rewrite (IH _ Hnd He). unfold twik.Create.
      destruct (decide (k = n)) as [->|Hne].
      * rewrite lookup_insert_eq, Hf.
        destruct (s !! n) eqn:Hs; simpl; [now rewrite Hs|].
        now rewrite lookup_insert_eq.
      * rewrite (lookup_insert_ne _ k n) by exact Hne.
        destruct (s !! k); simpl; [reflexivity|].
        now rewrite lookup_insert_ne by exact Hne.
Qed.

Lemma Export_in_returns (order : list (string * HostFunc)) s :
  (forall k f, (k, f) ∈ order -> is_nil (hf_value f) = false ->
     exists w, Func k f = Ret w) ->
  exists s', FuncMap_Export_in order s = Ret s'.
Proof.
  revert s. induction order as [|[k f] rest IH]; intros s Hall; simpl; [eauto|].
  assert (Hrest : forall k' f', (k', f') ∈ rest -> is_nil (hf_value f') = false ->
            exists w, Func k' f' = Ret w)
    by (intros k' f' Hin; apply Hall; now right).
  destruct (is_nil (hf_value f)) eqn:Hf; simpl; [now apply IH|].
  destruct (Hall k f ltac:(left) Hf) as [w ->]. simpl. now apply IH.
Qed.

(** X22.  [Export] does not depend on the order in which the map is
    iterated and never rebinds: when it returns, a name that the scope
    defined keeps its binding, a name with a nil entry is not bound, and
    every other name of the map is bound to the wrapper of its entry.  It
    returns when [Func] accepts every entry that is not nil. *)
Theorem Export_result (fm : gmap string HostFunc)
    (order : list (string * HostFunc)) (s : gmap string Value) :
  order ≡ₚ map_to_list fm ->
  (forall s', FuncMap_Export_in order s = Ret s' ->
     forall n, s' !! n = exported fm s n) /\
  ((forall k f, fm !! k = Some f -> is_nil (hf_value f) = false ->
      exists w, Func k f = Ret w) ->
   exists s', FuncMap_Export_in order s = Ret s').
Proof.
  intros Hp. destruct (entries_of _ _ Hp) as [Hnd Hl]. split.
  - intros s' He n. rewrite <- Hl. now apply Export_in_lookup.
  - intros Hall. apply Export_in_returns. intros k f Hin.
    apply Hall. apply elem_of_map_to_list. now rewrite <- Hp.
Qed.

Lemma Export_result_witness :
  exists s',
    FuncMap_Export_in [("log", AdapterSpec.logf); ("read", AdapterSpec.readFile)]
      {[ "log" := VInt 1 ]} = Ret s' /\
    s' !! "read" = Some (wrapper_of AdapterSpec.readFile) /\
    s' !! "log" = Some (VInt 1).
Proof.
  assert (Hp : [("log", AdapterSpec.logf); ("read", AdapterSpec.readFile)]
               ≡ₚ map_to_list twoFuncs).
  { unfold twoFuncs. rewrite map_to_list_insert by reflexivity.
    rewrite map_to_list_singleton. apply Permutation_swap. }
  destruct (Export_result _ _ {[ "log" := VInt 1 ]} Hp) as [Hl Hr].
  destruct Hr as [s' He].
  - intros k f Hk _. unfold twoFuncs in Hk.
    apply lookup_insert_Some in Hk as [[<- <-]|[_ Hk]].
    + destruct (Func "read" AdapterSpec.readFile) as [w|] eqn:Hw;
        [eauto | discriminate].
    + apply lookup_singleton_Some in Hk as [<- <-].
      destruct (Func "log" AdapterSpec.logf) as [w|] eqn:Hw;
        [eauto | discriminate].
  - exists s'. split; [exact He|].
    split; [now rewrite (Hl s' He "read") | now rewrite (Hl s' He "log")].
Defined.

(** X23.  An executer made by [New] treats every name of the loader's
    map as a function's, also a name with a nil entry and a name the
    scope had defined: such a name is reported absent, cannot be read
    and cannot be set.  No other name is a function's, and the names
    outside the map are bound as in the scope [New] started from. *)
Theorem New_reserves (order : list (string * HostFunc))
    (globals : gmap string Value) (fns : gmap string HostFunc) (e : Executer) :
  order ≡ₚ map_to_list fns ->
  New_in order globals fns = Ret e ->
  forall n,
    (is_func e n = true <-> is_Some (fns !! n)) /\
    (is_Some (fns !! n) ->
       Executer_Has e n = false /\
       Executer_Get e n = (VNil, Some (ENew "functions cannot be gotten")) /\
       forall v, Executer_Set e n v
                 = (e, Some (ENew "function with that name already exists"))) /\
    (fns !! n = None -> scope e !! n = globals !! n).
Proof.
  intros Hp. unfold New_in.
  destruct (FuncMap_Export_in order globals) as [s|] eqn:He; simpl; [|discriminate].
  intros [= <-] n.
  assert (Hf : is_func {| scope := s; funcs := (fun _ => true) <$> fns |} n
               = match fns !! n with Some _ => true | None => false end).
  { unfold is_func. simpl. rewrite lookup_fmap. now destruct (fns !! n). }
  split; [|split].
  - rewrite Hf. destruct (fns !! n); split; try done; try eauto;
      intros [? ?]; discriminate.
  - intros [f Hn]. rewrite Hn in Hf.
    unfold Executer_Has, Executer_Get, Executer_Set. now rewrite Hf.
  - intros Hn. simpl.
    destruct (entries_of _ _ Hp) as [Hnd Hl].
    rewrite (Export_in_lookup _ _ _ n Hnd He), Hl. unfold exported. rewrite Hn.
    now destruct (globals !! n).
Qed.

Lemma New_reserves_witness :
  exists e,
    New_in [("read", nilEntry)] ∅ {[ "read" := nilEntry ]} = Ret e /\
    scope e !! "read" = None /\
    Executer_Set e "read" (VInt 1)
      = (e, Some (ENew "function with that name already exists")).
Proof.
  assert (H : New_in [("read", nilEntry)] ∅ {[ "read" := nilEntry ]}
              = Ret {| scope := ∅;
                       funcs := (fun _ => true) <$> {[ "read" := nilEntry ]} |})
    by reflexivity.
  eexists. split; [exact H|]. split; [reflexivity|].
  apply (New_reserves _ _ _ _ ltac:(now rewrite map_to_list_singleton) H "read").
  eexists. apply lookup_singleton_eq.
Defined.

Lemma format_each_returns fm xs :
  (forall k, k ∈ xs -> exists line, Format k (FuncMap_get fm k) = Ret line) ->
  exists lines, format_each fm xs = Ret lines /\
    Forall2 (fun k line => Format k (FuncMap_get fm k) = Ret line) xs lines.
Proof.
  induction xs as [|k xs IH]; intros Hall; simpl.
  - exists []. split; [reflexivity | constructor].
  - destruct (Hall k ltac:(left)) as [line Hl].
    destruct IH as [lines [Hr Hf]]; [intros k' Hk'; apply Hall; now right|].
    exists (line :: lines). rewrite Hl. simpl. rewrite Hr. simpl.
    split; [reflexivity | now constructor].
Qed.

Lemma format_each_panics fm xs k :
  k ∈ xs -> FuncMap_get fm k = VNil ->
  exists msg, format_each fm xs = Panic msg.
Proof.
  intros Hk Hnil. induction xs as [|k' xs IH]; [inversion Hk|].
  simpl. apply elem_of_cons in Hk as [<-|Hk].
  - rewrite Hnil. simpl. eauto.
  - destruct (Format k' (FuncMap_get fm k')) as [line|msg]; simpl; [|eauto].
    destruct (IH Hk) as [msg ->]. simpl. eauto.
Qed.

(** X24.  [FormatList] does not depend on the order in which the map is
    iterated.  It panics when the map has a nil entry, which [Export]
    skips.  When [Format] returns for every entry, it returns one line per
    name, in sorted order of the names, each the [Format] of the name and
    its entry. *)
Theorem FormatList_lines (fm : gmap string HostFunc) (order : list string) :
  order ≡ₚ (map_to_list fm).*1 ->
  FuncMap_FormatList_in order fm = FuncMap_FormatList fm /\
  StronglySorted string_le (FuncMap_Keys fm) /\
  ((exists k f, fm !! k = Some f /\ hf_value f = VNil) ->
     exists msg, FuncMap_FormatList fm = Panic msg) /\
  ((forall k f, fm !! k = Some f -> exists line, Format k (hf_value f) = Ret line) ->
     exists lines, FuncMap_FormatList fm = Ret lines /\
       Forall2 (fun k line => Format k (FuncMap_get fm k) = Ret line)
         (FuncMap_Keys fm) lines).
Proof.
  intros Hp.
  assert (Hperm : forall l, sort_Strings l ≡ₚ l)
    by (intros l; apply (merge_sort_Permutation string_le)).
  assert (Hin : forall k, k ∈ FuncMap_Keys fm <-> is_Some (fm !! k)).
  { intros k. unfold FuncMap_Keys, FuncMap_Keys_in. rewrite Hperm.
    rewrite list_elem_of_fmap. split.
    - intros [[k' f] [-> Hk]]. apply elem_of_map_to_list in Hk. now exists f.
    - intros [f Hk]. exists (k, f). split; [reflexivity|].
      now apply elem_of_map_to_list. }
  split; [|split; [|split]].
  - unfold FuncMap_FormatList, FuncMap_FormatList_in, FuncMap_Keys_in. f_equal.
    apply sort_Strings_unique.
    + apply (StronglySorted_merge_sort string_le).
    + now rewrite Hperm.
  - apply (StronglySorted_merge_sort string_le).
  - intros [k [f [Hk Hnil]]].
    apply (format_each_panics fm _ k).
    + apply Hin. now exists f.
    + unfold FuncMap_get. now rewrite Hk.
  - intros Hall. apply format_each_returns. intros k Hk.
    apply Hin in Hk as [f Hk]. unfold FuncMap_get. rewrite Hk. now apply Hall.
Qed.

Lemma FormatList_lines_witness :
  (exists msg, FuncMap_FormatList {[ "read" := nilEntry ]} = Panic msg) /\
  FuncMap_FormatList_in ["read"; "log"] twoFuncs = FuncMap_FormatList twoFuncs /\
  FuncMap_FormatList_in ["log"; "read"] twoFuncs = FuncMap_FormatList twoFuncs /\
  FuncMap_FormatList twoFuncs
    = Ret ["log :: string -> ...int => ()"; "read :: string => []byte"].
Proof.
  assert (Hp : ["read"; "log"] ≡ₚ (map_to_list twoFuncs).*1).
  { unfold twoFuncs. rewrite map_to_list_insert by reflexivity.
    now rewrite map_to_list_singleton. }
  assert (H1 := proj1 (FormatList_lines twoFuncs ["read"; "log"] Hp)).
  split; [|split; [exact H1|split]].
  - apply (FormatList_lines {[ "read" := nilEntry ]} ["read"]).
    + now rewrite map_to_list_singleton.
    + exists "read", nilEntry. split; [apply lookup_singleton_eq | reflexivity].
  - apply (FormatList_lines twoFuncs ["log"; "read"]).
    rewrite <- Hp. apply Permutation_swap.
  - rewrite <- H1. reflexivity.
Defined.

(** *** The text of a parameter type error *)

Lemma append_assoc (s1 s2 s3 : string) : (s1 +:+ s2) +:+ s3 = s1 +:+ (s2 +:+ s3).
Proof.
  induction s1 as [|c s1 IH]; [reflexivity|].
  change (String c ((s1 +:+ s2) +:+ s3) = String c (s1 +:+ (s2 +:+ s3))).
  now rewrite IH.
Qed.

Lemma enumerate_three a b c :
  enumerate [a; b; c] = Ret (a +:+ ", " +:+ b +:+ ", or " +:+ c).
Proof.
  unfold enumerate, index, concat_strings. simpl.
  rewrite !append_assoc. reflexivity.
Qed.

(** X25.  [TypeError.Error] of twik.go on an error whose value got is not
    nil and whose function formats: one wanted type prints as it is, two
    as "A or B", three as "A, B, or C"; with no wanted type it panics.  On
    an error fresh from [NewTypeError], which has no function, it panics
    whatever the error holds. *)
Theorem TypeError_text (fname sig a b c : string) (fn got : Value) (t : GoType) :
  TypeOf got = Some t ->
  Format fname fn = Ret sig ->
  twikutil.TypeError_Error fname fn got [a]
    = Ret (mismatch_message fname (typeName t) a sig) /\
  twikutil.TypeError_Error fname fn got [a; b]
    = Ret (mismatch_message fname (typeName t) (a +:+ " or " +:+ b) sig) /\
  twikutil.TypeError_Error fname fn got [a; b; c]
    = Ret (mismatch_message fname (typeName t)
             (a +:+ ", " +:+ b +:+ ", or " +:+ c) sig) /\
  twikutil.TypeError_Error fname fn got [] = Panic "index out of range" /\
  (forall got' want, exists msg,
     twikutil.TypeError_Error "" VNil got' want = Panic msg).
Proof.
  intros Ht Hs.
  assert (Hgot : typeof got = Ret t) by (unfold typeof; now rewrite Ht).
  unfold twikutil.TypeError_Error. rewrite Hgot, Hs.
  split; [reflexivity|]. split; [reflexivity|]. split; [|split; [reflexivity|]].
  - now rewrite enumerate_three.
  - intros got' want. destruct (typeof got') as [t'|]; simpl; [|eauto].
    destruct (enumerate want) as [w|msg]; simpl; eauto.
Qed.

Lemma TypeError_text_witness :
  twikutil.TypeError_Error "port" (hf_value AdapterSpec.parsePort) (VInt 1) ["string"]
    = Ret (mismatch_message "port" "int" "string" "port :: string => int").
Proof.
  apply (TypeError_text "port" "port :: string => int" "string" "" ""
           (hf_value AdapterSpec.parsePort) (VInt 1) (TBasic Int));
    reflexivity.
Defined.

(** *** More on the adapter *)


(** X26.  A wrapped function is made exactly for a value whose type is of
    kind function, a function type or a type defined from one (see
    [AdapterProps.kind_Func_signature]), and whose signature has at most
    one result, or two results of which the second has the type name
    error; for every other value [Func] panics. *)
Theorem Func_wraps (fname : string) (f : HostFunc) :
  (exists invoke, Func fname f = Ret invoke) <->
  (exists t ins variadic outs,
     TypeOf (hf_value f) = Some t /\
     signature t = Some (ins, variadic, outs) /\
     ((length outs <= 1)%nat \/
      exists o0 o1, outs = [o0; o1] /\ type_name o1 = "error")).
Proof.
  unfold Func, typeof. split.
  - intros [invoke Hf].
    destruct (TypeOf (hf_value f)) as [t|] eqn:Ht; simpl in Hf; [|discriminate].
    destruct (negb (bool_decide (type_kind t = Func_))); [discriminate|].
    unfold IsVariadic in Hf.
    destruct (signature t) as [[[ins variadic] outs]|] eqn:Hs;
      simpl in Hf; [|discriminate].
    exists t, ins, variadic, outs. split; [reflexivity|]. split; [exact Hs|].
    assert (Hret : exists ret, funcReturn fname (hf_value f) = Ret ret).
    { destruct variadic; [unfold funcVariadic in Hf | unfold funcStandard in Hf];
        destruct (funcReturn fname (hf_value f)); try discriminate; eauto. }
    destruct Hret as [ret Hret]. unfold funcReturn, typeof in Hret.
    rewrite Ht in Hret. simpl in Hret. unfold NumOut, Out in Hret.
    rewrite Hs in Hret. simpl in Hret.
    destruct (Z.of_nat (length outs) =? 0) eqn:E0;
      [apply Z.eqb_eq in E0; left; lia|].
    destruct (Z.of_nat (length outs) =? 1) eqn:E1;
      [apply Z.eqb_eq in E1; left; lia|].
    destruct (Z.of_nat (length outs) =? 2) eqn:E2; [|discriminate].
    apply Z.eqb_eq in E2.
    destruct outs as [|o0 [|o1 [|o2 outs]]]; simpl in E2; try lia.
    right. exists o0, o1. split; [reflexivity|]. simpl in Hret.
    destruct (bool_decide (type_name o1 = "error")) eqn:Hb; [|discriminate].
    now apply bool_decide_eq_true in Hb.
  - intros [t [ins [variadic [outs [Ht [Hs Houts]]]]]]. rewrite Ht. simpl.
    assert (Hk : type_kind t = Func_) by (apply AdapterProps.kind_Func_signature; eauto).
    rewrite bool_decide_eq_true_2 by exact Hk. simpl.
    unfold IsVariadic. rewrite Hs. simpl.
    assert (Hret : exists ret, funcReturn fname (hf_value f) = Ret ret).
    { unfold funcReturn, typeof. rewrite Ht. simpl. unfold NumOut, Out.
      rewrite Hs. simpl.
      destruct Houts as [Hle|[o0 [o1 [-> Hn]]]].
      - destruct outs as [|o0 [|o1 outs]]; simpl in *; [eauto| |lia].
        destruct (negb (bool_decide (type_name o0 = "error"))); eauto.
      - simpl. rewrite bool_decide_eq_true_2 by exact Hn. simpl. eauto. }
    destruct Hret as [ret Hret].
    destruct variadic; [unfold funcVariadic | unfold funcStandard];
      rewrite Hret; unfold typeof; rewrite Ht; simpl;
      unfold NumIn; rewrite Hs; simpl; eauto.
Qed.

Lemma Func_wraps_witness :
  exists invoke, Func "handle" AdapterSpec.handler = Ret invoke.
Proof.
  apply (Func_wraps "handle" AdapterSpec.handler).
  exists AdapterSpec.tHandler, [TBasic String_], false, [tError].
  split; [reflexivity|]. split; [reflexivity|]. left. simpl. lia.
Defined.







End ExtraProps.
